(** * Myriad: the serial-controlled alarm sketches

    Two Arduino sketches drive a warning LED and a buzzer from a one-byte
    serial command.  [Simple] embeds [arduino/main/main.ino]; [Elaborate]
    embeds the second sketch (green idle LED, beep-boo tone sequencer).

    One call of the sketch's [loop()] is a state transformer on the sketch's
    globals and on the board's outputs.  The two things [loop()] asks of the
    outside world are given to it as arguments: what the serial port had to
    offer ([None] when [Serial.available()] is false, [Some cmd] for the byte
    [Serial.read()] returns) and the time since boot in milliseconds, from
    which [millis()] is computed. *)

From Stdlib Require Import ZArith Lia Ascii Bool List.
From stdpp Require Import base option gmap.
Import ListNotations.
Local Open Scope Z_scope.

(** ** The platform *)

Module Arduino.

(** [unsigned long] is 32 bits wide; arithmetic on it wraps. *)
Definition ULONG_MOD : Z := 2 ^ 32.
Definition wrap (z : Z) : Z := z mod ULONG_MOD.
Definition usub (a b : Z) : Z := wrap (a - b).
Definition uadd (a b : Z) : Z := wrap (a + b).

(** [millis()] at [t] milliseconds after boot. *)
Definition millis (t : Z) : Z := wrap t.

Definition LOW : bool := false.
Definition HIGH : bool := true.

(** The outputs: the level driven on each digital pin, and the frequency
    of the square wave the tone generator puts on a pin (no entry: no
    tone). *)
Record Board : Type := mkBoard {
  levels : gmap Z bool;
  tones : gmap Z Z
}.

Definition power_on : Board := mkBoard ∅ ∅.

(** An output pin comes up with its latch low. *)
Definition pinMode_OUTPUT (pin : Z) (b : Board) : Board :=
  mkBoard (<[pin := default LOW (levels b !! pin)]> (levels b)) (tones b).

Definition digitalWrite (pin : Z) (v : bool) (b : Board) : Board :=
  mkBoard (<[pin := v]> (levels b)) (tones b).

Definition tone (pin : Z) (frequency : Z) (b : Board) : Board :=
  mkBoard (levels b) (<[pin := frequency]> (tones b)).

Definition noTone (pin : Z) (b : Board) : Board :=
  mkBoard (levels b) (delete pin (tones b)).

(** Sketch code as state transformers. *)
Definition Prog (S A : Type) : Type := S -> A * S.

Definition exec {S A : Type} (p : Prog S A) (s : S) : S := snd (p s).

Definition ret {S A : Type} (a : A) : Prog S A := fun s => (a, s).

Definition bind {S A B : Type} (m : Prog S A) (f : A -> Prog S B)
  : Prog S B :=
  fun s => let (a, s') := m s in f a s'.

Definition rd {S A : Type} (field : S -> A) : Prog S A :=
  fun s => (field s, s).

Definition upd {S : Type} (f : S -> S) : Prog S unit :=
  fun s => (tt, f s).

Definition skip {S : Type} : Prog S unit := ret tt.

End Arduino.

Import Arduino.

Declare Scope prog_scope.
Delimit Scope prog_scope with prog.
Notation "x ← y ; z" := (bind y (fun x => z))
  (at level 20, y at level 100, z at level 200, only parsing) : prog_scope.
Notation "x ;; z" := (bind x (fun _ => z))
  (at level 100, z at level 200, only parsing, right associativity)
  : prog_scope.
Local Open Scope prog_scope.

(** ** The sketch with the tone sequencer *)

Module Elaborate.

Definition LED_PIN : Z := 3.
Definition BUZZER_PIN : Z := 4.
Definition LED_PIN_GREEN : Z := 2.

Definition ledInterval : Z := 100.
Definition buzzerInterval : Z := 300.
Definition buzzerSilence : Z := 200.

Inductive ToneState : Set := BEEP | PAUSE1 | BOO | PAUSE2.

Record Sketch : Type := mkSketch {
  isActive : bool;
  previousLedMillis : Z;
  ledState : bool;
  previousBuzzerMillis : Z;
  toneState : ToneState;
  board : Board
}.

Definition set_isActive (v : bool) : Prog Sketch unit :=
  upd (fun s => mkSketch v (previousLedMillis s) (ledState s)
                  (previousBuzzerMillis s) (toneState s) (board s)).
Definition set_previousLedMillis (v : Z) : Prog Sketch unit :=
  upd (fun s => mkSketch (isActive s) v (ledState s)
                  (previousBuzzerMillis s) (toneState s) (board s)).
Definition set_ledState (v : bool) : Prog Sketch unit :=
  upd (fun s => mkSketch (isActive s) (previousLedMillis s) v
                  (previousBuzzerMillis s) (toneState s) (board s)).
Definition set_previousBuzzerMillis (v : Z) : Prog Sketch unit :=
  upd (fun s => mkSketch (isActive s) (previousLedMillis s) (ledState s)
                  v (toneState s) (board s)).
Definition set_toneState (v : ToneState) : Prog Sketch unit :=
  upd (fun s => mkSketch (isActive s) (previousLedMillis s) (ledState s)
                  (previousBuzzerMillis s) v (board s)).
Definition hw (f : Board -> Board) : Prog Sketch unit :=
  upd (fun s => mkSketch (isActive s) (previousLedMillis s) (ledState s)
                  (previousBuzzerMillis s) (toneState s) (f (board s))).

(** The globals as initialised, on a board just powered on. *)
Definition globals : Sketch :=
  mkSketch false 0 false 0 PAUSE2 power_on.

Definition setup : Prog Sketch unit :=
  hw (pinMode_OUTPUT LED_PIN) ;;
  hw (pinMode_OUTPUT LED_PIN_GREEN) ;;
  hw (pinMode_OUTPUT BUZZER_PIN) ;;
  hw (digitalWrite LED_PIN_GREEN HIGH).

(** The first block of [loop()]: the serial poll and the command byte. *)
Definition serial_command (rx : option ascii) : Prog Sketch unit :=
  match rx with
  | Some cmd =>
      if Ascii.eqb cmd "1" then set_isActive true
      else if Ascii.eqb cmd "0" then
        set_isActive false ;;
        hw (digitalWrite LED_PIN LOW) ;;
        hw (noTone BUZZER_PIN)
      else skip
  | None => skip
  end.

Definition loop (rx : option ascii) (t : Z) : Prog Sketch unit :=
  serial_command rx ;;
  let currentMillis := millis t in
  active ← rd isActive ;
  if active then
    hw (digitalWrite LED_PIN_GREEN LOW) ;;
    prevLed ← rd previousLedMillis ;
    (if ledInterval <=? usub currentMillis prevLed then
       set_previousLedMillis currentMillis ;;
       led ← rd ledState ;
       set_ledState (negb led) ;;
       led' ← rd ledState ;
       hw (digitalWrite LED_PIN led')
     else skip) ;;
    prevBuzzer ← rd previousBuzzerMillis ;
    if buzzerInterval <=? usub currentMillis prevBuzzer then
      set_previousBuzzerMillis currentMillis ;;
      st ← rd toneState ;
      match st with
      | PAUSE1 | PAUSE2 =>
          hw (noTone BUZZER_PIN) ;;
          st' ← rd toneState ;
          set_toneState (match st' with PAUSE1 => BOO | _ => BEEP end) ;;
          stamp ← rd previousBuzzerMillis ;
          set_previousBuzzerMillis (uadd stamp buzzerSilence)
      | BEEP =>
          hw (tone BUZZER_PIN 1000) ;;
          set_toneState PAUSE1
      | BOO =>
          hw (tone BUZZER_PIN 600) ;;
          set_toneState PAUSE2
      end
    else skip
  else
    hw (digitalWrite LED_PIN_GREEN HIGH).

(** One scheduling iteration, and a run of them from a given state. *)
Definition step (rx : option ascii) (t : Z) (s : Sketch) : Sketch :=
  exec (loop rx t) s.

Fixpoint run (iterations : list (option ascii * Z)) (s : Sketch) : Sketch :=
  match iterations with
  | [] => s
  | (rx, t) :: rest => run rest (step rx t s)
  end.

Definition boot : Sketch := exec setup globals.

(** [isActive] as the serial block leaves it: what the rest of the
    iteration tests. *)
Definition active_after (rx : option ascii) (s : Sketch) : bool :=
  isActive (exec (serial_command rx) s).

(** The two elapsed-time gates of the iteration at time [t]. *)
Definition led_due (rx : option ascii) (t : Z) (s : Sketch) : bool :=
  active_after rx s &&
  (ledInterval <=? usub (millis t) (previousLedMillis s)).

Definition tone_due (rx : option ascii) (t : Z) (s : Sketch) : bool :=
  active_after rx s &&
  (buzzerInterval <=? usub (millis t) (previousBuzzerMillis s)).

(** No iteration of [its], run in turn from [s], opens the LED gate. *)
Fixpoint led_quiet (its : list (option ascii * Z)) (s : Sketch) : Prop :=
  match its with
  | [] => True
  | (rx, t) :: rest => led_due rx t s = false /\ led_quiet rest (step rx t s)
  end.

(** The cyclic order the specification gives for the sequencer:
    BEEP, PAUSE_AFTER_BEEP, BOO, PAUSE_AFTER_BOO, and BEEP again. *)
Definition successor (st : ToneState) : ToneState :=
  match st with
  | BEEP => PAUSE1
  | PAUSE1 => BOO
  | BOO => PAUSE2
  | PAUSE2 => BEEP
  end.

(** What the buzzer may be doing while the state variable holds [st]:
    each case of the switch acts first and then moves on, so a tone is
    heard under the name of the pause that follows it. *)
Definition sounding (st : ToneState) : option Z :=
  match st with
  | PAUSE1 => Some 1000
  | PAUSE2 => Some 600
  | BEEP | BOO => None
  end.

End Elaborate.

(** ** The sketch that drives LED and buzzer together *)

Module Simple.

Definition LED_PIN : Z := 3.
Definition BUZZER_PIN : Z := 4.

Definition blinkInterval : Z := 250.

Record Sketch : Type := mkSketch {
  isActive : bool;
  previousMillis : Z;
  state : bool;
  board : Board
}.

Definition set_isActive (v : bool) : Prog Sketch unit :=
  upd (fun s => mkSketch v (previousMillis s) (state s) (board s)).
Definition set_previousMillis (v : Z) : Prog Sketch unit :=
  upd (fun s => mkSketch (isActive s) v (state s) (board s)).
Definition set_state (v : bool) : Prog Sketch unit :=
  upd (fun s => mkSketch (isActive s) (previousMillis s) v (board s)).
Definition hw (f : Board -> Board) : Prog Sketch unit :=
  upd (fun s => mkSketch (isActive s) (previousMillis s) (state s)
                  (f (board s))).

Definition globals : Sketch := mkSketch false 0 false power_on.

Definition setup : Prog Sketch unit :=
  hw (pinMode_OUTPUT LED_PIN) ;;
  hw (pinMode_OUTPUT BUZZER_PIN).

(** The first block of [loop()]: the serial poll and the command byte. *)
Definition serial_command (rx : option ascii) : Prog Sketch unit :=
  match rx with
  | Some cmd =>
      if Ascii.eqb cmd "1" then set_isActive true
      else if Ascii.eqb cmd "0" then
        set_isActive false ;;
        hw (digitalWrite LED_PIN LOW) ;;
        hw (digitalWrite BUZZER_PIN LOW)
      else skip
  | None => skip
  end.

Definition loop (rx : option ascii) (t : Z) : Prog Sketch unit :=
  serial_command rx ;;
  active ← rd isActive ;
  if active then
    let currentMillis := millis t in
    prev ← rd previousMillis ;
    if blinkInterval <=? usub currentMillis prev then
      set_previousMillis currentMillis ;;
      st ← rd state ;
      set_state (negb st) ;;
      st' ← rd state ;
      hw (digitalWrite LED_PIN st') ;;
      st'' ← rd state ;
      hw (digitalWrite BUZZER_PIN st'')
    else skip
  else skip.

Definition step (rx : option ascii) (t : Z) (s : Sketch) : Sketch :=
  exec (loop rx t) s.

Fixpoint run (iterations : list (option ascii * Z)) (s : Sketch) : Sketch :=
  match iterations with
  | [] => s
  | (rx, t) :: rest => run rest (step rx t s)
  end.

Definition boot : Sketch := exec setup globals.

Definition active_after (rx : option ascii) (s : Sketch) : bool :=
  isActive (exec (serial_command rx) s).

(** The elapsed-time gate of the iteration at time [t]. *)
Definition blink_due (rx : option ascii) (t : Z) (s : Sketch) : bool :=
  active_after rx s &&
  (blinkInterval <=? usub (millis t) (previousMillis s)).

(** No iteration of [its], run in turn from [s], opens the blink gate. *)
Fixpoint blink_quiet (its : list (option ascii * Z)) (s : Sketch) : Prop :=
  match its with
  | [] => True
  | (rx, t) :: rest =>
      blink_due rx t s = false /\ blink_quiet rest (step rx t s)
  end.

End Simple.

(** ** Unsigned arithmetic on the millisecond clock *)

Section Clock.

Lemma wrap_range (z : Z) : 0 <= wrap z < ULONG_MOD.
Proof. unfold wrap, ULONG_MOD. apply Z.mod_pos_bound. lia. Qed.

Lemma wrap_small (z : Z) : 0 <= z < ULONG_MOD -> wrap z = z.
Proof. unfold wrap, ULONG_MOD. intros H. apply Z.mod_small. exact H. Qed.

Lemma usub_millis (t t0 : Z) : usub (millis t) (millis t0) = wrap (t - t0).
Proof.
  unfold usub, millis, wrap, ULONG_MOD.
  rewrite <- Zminus_mod. reflexivity.
Qed.

Lemma usub_elapsed (t t0 : Z) :
  0 <= t - t0 < ULONG_MOD -> usub (millis t) (millis t0) = t - t0.
Proof. intros H. rewrite usub_millis. apply wrap_small. exact H. Qed.

Lemma usub_advanced (t t0 d : Z) :
  usub (millis t) (uadd (millis t0) d) = wrap (t - t0 - d).
Proof.
  unfold usub, uadd, millis, wrap, ULONG_MOD.
  rewrite <- Zminus_mod.
  replace (t - (t0 mod 2 ^ 32 + d)) with (t - d - t0 mod 2 ^ 32) by lia.
  rewrite Zminus_mod_idemp_r. f_equal. lia.
Qed.

End Clock.

(** ** One iteration of the tone-sequencer sketch, field by field *)

Module ElaborateFacts.
Import Elaborate.

Ltac unfold_loop :=
  cbv [step exec loop serial_command bind ret rd upd skip hw
       set_isActive set_previousLedMillis set_ledState
       set_previousBuzzerMillis set_toneState
       isActive previousLedMillis ledState previousBuzzerMillis toneState
       board snd fst active_after led_due tone_due successor andb] in *.

Ltac split_branch :=
  match goal with
  | |- context [if ?c then _ else _] => destruct c eqn:?
  | |- context [match ?x with BEEP => _ | _ => _ end] => destruct x eqn:?
  | |- context [match ?x with Some _ => _ | None => _ end] => destruct x
  end.

Ltac crunch := unfold_loop; repeat (split_branch; unfold_loop).

Lemma elab_step_isActive (rx : option ascii) (t : Z) (s : Sketch) :
  isActive (step rx t s) = active_after rx s.
Proof. destruct s. crunch; try reflexivity; congruence. Qed.

Lemma elab_step_ledState (rx : option ascii) (t : Z) (s : Sketch) :
  ledState (step rx t s) =
  if led_due rx t s then negb (ledState s) else ledState s.
Proof. destruct s. crunch; try reflexivity; congruence. Qed.

Lemma elab_step_previousLedMillis (rx : option ascii) (t : Z) (s : Sketch) :
  previousLedMillis (step rx t s) =
  if led_due rx t s then millis t else previousLedMillis s.
Proof. destruct s. crunch; try reflexivity; congruence. Qed.

Lemma elab_step_toneState (rx : option ascii) (t : Z) (s : Sketch) :
  toneState (step rx t s) =
  if tone_due rx t s
  then successor (toneState s) else toneState s.
Proof. destruct s. crunch; try reflexivity; congruence. Qed.

Lemma elab_step_previousBuzzerMillis (rx : option ascii) (t : Z) (s : Sketch) :
  previousBuzzerMillis (step rx t s) =
  if tone_due rx t s
  then match toneState s with
       | PAUSE1 | PAUSE2 => uadd (millis t) buzzerSilence
       | BEEP | BOO => millis t
       end
  else previousBuzzerMillis s.
Proof. destruct s. crunch; try reflexivity; congruence. Qed.

Ltac pins :=
  cbv [digitalWrite tone noTone pinMode_OUTPUT levels tones
       LED_PIN BUZZER_PIN LED_PIN_GREEN LOW HIGH] in *;
  simplify_map_eq; try done.

(** The serial block touches the outputs only on ['0'], and never the
    phase variables nor the timestamps. *)
Lemma elab_command_phase (rx : option ascii) (s : Sketch) :
  let s' := exec (serial_command rx) s in
  ledState s' = ledState s /\
  previousLedMillis s' = previousLedMillis s /\
  toneState s' = toneState s /\
  previousBuzzerMillis s' = previousBuzzerMillis s.
Proof. destruct s. crunch; auto. Qed.

Lemma elab_command_zero (s : Sketch) :
  exec (serial_command (Some "0"%char)) s =
  mkSketch false (previousLedMillis s) (ledState s)
    (previousBuzzerMillis s) (toneState s)
    (noTone BUZZER_PIN (digitalWrite LED_PIN LOW (board s))).
Proof. destruct s. reflexivity. Qed.

Lemma elab_command_one (s : Sketch) :
  exec (serial_command (Some "1"%char)) s =
  mkSketch true (previousLedMillis s) (ledState s)
    (previousBuzzerMillis s) (toneState s) (board s).
Proof. destruct s. reflexivity. Qed.

Lemma elab_command_other (cmd : ascii) (s : Sketch) :
  cmd <> "0"%char -> cmd <> "1"%char ->
  exec (serial_command (Some cmd)) s = s.
Proof.
  intros H0 H1. apply Ascii.eqb_neq in H0, H1.
  destruct s. unfold exec, serial_command. rewrite H0, H1. reflexivity.
Qed.

Lemma elab_command_none (s : Sketch) : exec (serial_command None) s = s.
Proof. destruct s. reflexivity. Qed.

Lemma elab_step_led_pin (rx : option ascii) (t : Z) (s : Sketch) :
  levels (board (step rx t s)) !! LED_PIN =
  if led_due rx t s then Some (negb (ledState s))
  else levels (board (exec (serial_command rx) s)) !! LED_PIN.
Proof. destruct s. crunch; try congruence; pins. Qed.

Lemma elab_step_buzzer (rx : option ascii) (t : Z) (s : Sketch) :
  tones (board (step rx t s)) !! BUZZER_PIN =
  if tone_due rx t s
  then match toneState s with
       | BEEP => Some 1000
       | BOO => Some 600
       | PAUSE1 | PAUSE2 => None
       end
  else tones (board (exec (serial_command rx) s)) !! BUZZER_PIN.
Proof. destruct s. crunch; try congruence; pins. Qed.

Lemma elab_step_green_pin (rx : option ascii) (t : Z) (s : Sketch) :
  levels (board (step rx t s)) !! LED_PIN_GREEN =
  Some (negb (active_after rx s)).
Proof. destruct s. crunch; try congruence; pins. Qed.

(** A serial block that leaves the sketch active has written no output. *)
Lemma elab_active_keeps_board (rx : option ascii) (s : Sketch) :
  active_after rx s = true ->
  board (exec (serial_command rx) s) = board s.
Proof. destruct s. crunch; intros; try reflexivity; congruence. Qed.

Lemma elab_active_after_not_zero (rx : option ascii) (s : Sketch) :
  isActive s = true -> rx <> Some "0"%char -> active_after rx s = true.
Proof.
  intros Ha Hrx. destruct s. crunch; try reflexivity; try congruence.
  match goal with
  | H : Ascii.eqb _ "0" = true |- _ => apply Ascii.eqb_eq in H
  end.
  congruence.
Qed.

Lemma elab_inactive_after_not_one (rx : option ascii) (s : Sketch) :
  isActive s = false -> rx <> Some "1"%char -> active_after rx s = false.
Proof.
  intros Ha Hrx. destruct s. crunch; try reflexivity; try congruence.
  match goal with
  | H : Ascii.eqb _ "1" = true |- _ => apply Ascii.eqb_eq in H
  end.
  congruence.
Qed.

Lemma elab_command_buzzer (rx : option ascii) (s : Sketch) :
  tones (board (exec (serial_command rx) s)) !! BUZZER_PIN = None \/
  board (exec (serial_command rx) s) = board s.
Proof. destruct s. crunch; auto. left. pins. Qed.

Lemma elab_command_led_pin (rx : option ascii) (s : Sketch) :
  levels (board (exec (serial_command rx) s)) !! LED_PIN = Some LOW \/
  board (exec (serial_command rx) s) = board s.
Proof. destruct s. crunch; auto. left. pins. Qed.

Lemma successor_moves (st : ToneState) : successor st <> st.
Proof. destruct st; discriminate. Qed.

Lemma successor_taken (st : ToneState) (b : bool) :
  (if b then successor st else st) = successor st <-> b = true.
Proof.
  destruct b; split; intros H; try reflexivity; try discriminate.
  symmetry in H. apply successor_moves in H. contradiction.
Qed.

End ElaborateFacts.

(** ** One iteration of the LED-and-buzzer sketch, field by field *)

Module SimpleFacts.
Import Simple.

Ltac unfold_loop :=
  cbv [step exec loop serial_command bind ret rd upd skip hw
       set_isActive set_previousMillis set_state
       isActive previousMillis state board snd fst
       active_after blink_due andb] in *.

Ltac split_branch :=
  match goal with
  | |- context [if ?c then _ else _] => destruct c eqn:?
  | |- context [match ?x with Some _ => _ | None => _ end] => destruct x
  end.

Ltac crunch := unfold_loop; repeat (split_branch; unfold_loop).

Ltac pins :=
  cbv [digitalWrite pinMode_OUTPUT levels tones
       LED_PIN BUZZER_PIN LOW HIGH] in *;
  simplify_map_eq; try done.

Lemma simple_step_isActive (rx : option ascii) (t : Z) (s : Sketch) :
  isActive (step rx t s) = active_after rx s.
Proof. destruct s. crunch; try reflexivity; congruence. Qed.

Lemma simple_step_state (rx : option ascii) (t : Z) (s : Sketch) :
  state (step rx t s) =
  if blink_due rx t s then negb (state s) else state s.
Proof. destruct s. crunch; try reflexivity; congruence. Qed.

Lemma simple_step_previousMillis (rx : option ascii) (t : Z) (s : Sketch) :
  previousMillis (step rx t s) =
  if blink_due rx t s then millis t else previousMillis s.
Proof. destruct s. crunch; try reflexivity; congruence. Qed.

Lemma simple_step_led_pin (rx : option ascii) (t : Z) (s : Sketch) :
  levels (board (step rx t s)) !! LED_PIN =
  if blink_due rx t s then Some (negb (state s))
  else levels (board (exec (serial_command rx) s)) !! LED_PIN.
Proof. destruct s. crunch; try congruence; pins. Qed.

Lemma simple_step_buzzer_pin (rx : option ascii) (t : Z) (s : Sketch) :
  levels (board (step rx t s)) !! BUZZER_PIN =
  if blink_due rx t s then Some (negb (state s))
  else levels (board (exec (serial_command rx) s)) !! BUZZER_PIN.
Proof. destruct s. crunch; try congruence; pins. Qed.

Lemma simple_command_phase (rx : option ascii) (s : Sketch) :
  let s' := exec (serial_command rx) s in
  state s' = state s /\ previousMillis s' = previousMillis s.
Proof. destruct s. crunch; auto. Qed.

Lemma simple_command_zero (s : Sketch) :
  exec (serial_command (Some "0"%char)) s =
  mkSketch false (previousMillis s) (state s)
    (digitalWrite BUZZER_PIN LOW (digitalWrite LED_PIN LOW (board s))).
Proof. destruct s. reflexivity. Qed.

Lemma simple_command_one (s : Sketch) :
  exec (serial_command (Some "1"%char)) s =
  mkSketch true (previousMillis s) (state s) (board s).
Proof. destruct s. reflexivity. Qed.

Lemma simple_command_other (cmd : ascii) (s : Sketch) :
  cmd <> "0"%char -> cmd <> "1"%char ->
  exec (serial_command (Some cmd)) s = s.
Proof.
  intros H0 H1. apply Ascii.eqb_neq in H0, H1.
  destruct s. unfold exec, serial_command. rewrite H0, H1. reflexivity.
Qed.

Lemma simple_command_none (s : Sketch) : exec (serial_command None) s = s.
Proof. destruct s. reflexivity. Qed.

Lemma simple_active_keeps_board (rx : option ascii) (s : Sketch) :
  active_after rx s = true ->
  board (exec (serial_command rx) s) = board s.
Proof. destruct s. crunch; intros; try reflexivity; congruence. Qed.

Lemma simple_active_after_not_zero (rx : option ascii) (s : Sketch) :
  isActive s = true -> rx <> Some "0"%char -> active_after rx s = true.
Proof.
  intros Ha Hrx. destruct s. crunch; try reflexivity; try congruence.
  match goal with
  | H : Ascii.eqb _ "0" = true |- _ => apply Ascii.eqb_eq in H
  end.
  congruence.
Qed.

Lemma simple_command_pins (rx : option ascii) (s : Sketch) :
  (levels (board (exec (serial_command rx) s)) !! LED_PIN = Some LOW /\
   levels (board (exec (serial_command rx) s)) !! BUZZER_PIN = Some LOW) \/
  board (exec (serial_command rx) s) = board s.
Proof. destruct s. crunch; auto. left. split; pins. Qed.

End SimpleFacts.

(** ** The command byte *)

Import ElaborateFacts SimpleFacts.

(** C1.  The byte ['0'] deactivates the controller and, within the same
    iteration of [loop()], leaves the LED output low and the buzzer silent:
    whatever the iterations that came before, whatever the state they were
    run from, and at whatever time; the elapsed-time gates play no part.  In
    the tone-sequencer sketch silence is the absence of a tone on the buzzer
    pin; in the other sketch the buzzer pin is driven low. *)
Theorem C1_zero_forces_outputs_quiescent :
  (forall (history : list (option ascii * Z)) (s0 : Elaborate.Sketch) (t : Z),
     let s' := Elaborate.step (Some "0"%char) t (Elaborate.run history s0) in
     Elaborate.isActive s' = false /\
     levels (Elaborate.board s') !! Elaborate.LED_PIN = Some LOW /\
     tones (Elaborate.board s') !! Elaborate.BUZZER_PIN = None) /\
  (forall (history : list (option ascii * Z)) (s0 : Simple.Sketch) (t : Z),
     let s' := Simple.step (Some "0"%char) t (Simple.run history s0) in
     Simple.isActive s' = false /\
     levels (Simple.board s') !! Simple.LED_PIN = Some LOW /\
     levels (Simple.board s') !! Simple.BUZZER_PIN = Some LOW).
Proof.
  split; intros history s0 t.
  - generalize (Elaborate.run history s0). intros s. cbv zeta.
    rewrite elab_step_isActive, elab_step_led_pin, elab_step_buzzer.
    unfold Elaborate.led_due, Elaborate.tone_due, Elaborate.active_after.
    rewrite elab_command_zero. cbn [Elaborate.isActive Elaborate.board andb].
    repeat split; ElaborateFacts.pins.
  - generalize (Simple.run history s0). intros s. cbv zeta.
    rewrite simple_step_isActive, simple_step_led_pin, simple_step_buzzer_pin.
    unfold Simple.blink_due, Simple.active_after.
    rewrite simple_command_zero. cbn [Simple.isActive Simple.board andb].
    repeat split; SimpleFacts.pins.
Qed.

(** C8.  A byte other than ['0'] and ['1'] is ignored: the serial block
    returns the sketch exactly as it found it (activation flag, phase
    variables, timestamps and every output), and the whole iteration ends in
    the state it would have reached had no byte been waiting. *)
Theorem C8_other_bytes_ignored (cmd : ascii) :
  cmd <> "0"%char -> cmd <> "1"%char ->
  (forall s : Elaborate.Sketch,
     exec (Elaborate.serial_command (Some cmd)) s = s) /\
  (forall (s : Elaborate.Sketch) (t : Z),
     Elaborate.step (Some cmd) t s = Elaborate.step None t s) /\
  (forall s : Simple.Sketch,
     exec (Simple.serial_command (Some cmd)) s = s) /\
  (forall (s : Simple.Sketch) (t : Z),
     Simple.step (Some cmd) t s = Simple.step None t s).
Proof.
  intros H0 H1. apply Ascii.eqb_neq in H0 as E0. apply Ascii.eqb_neq in H1 as E1.
  repeat split; intros.
  - apply elab_command_other; assumption.
  - unfold Elaborate.step, exec, Elaborate.loop, bind, Elaborate.serial_command.
    rewrite E0, E1. reflexivity.
  - apply simple_command_other; assumption.
  - unfold Simple.step, exec, Simple.loop, bind, Simple.serial_command.
    rewrite E0, E1. reflexivity.
Qed.

Lemma C8_other_bytes_ignored_witness :
  "x"%char <> "0"%char /\ "x"%char <> "1"%char /\
  exec (Elaborate.serial_command (Some "x"%char)) Elaborate.boot
  = Elaborate.boot.
Proof.
  split; [discriminate|]. split; [discriminate|].
  apply (C8_other_bytes_ignored "x"%char); discriminate.
Defined.

(** C9.  The byte ['1'] received while the controller is already active
    changes nothing: the serial block returns the state unchanged, so
    [isActive] stays true and the iteration ends exactly as it would have
    with no byte waiting. *)
Theorem C9_one_while_active_idempotent :
  (forall s : Elaborate.Sketch,
     Elaborate.isActive s = true ->
     exec (Elaborate.serial_command (Some "1"%char)) s = s /\
     forall t : Z,
       Elaborate.step (Some "1"%char) t s = Elaborate.step None t s /\
       Elaborate.isActive (Elaborate.step (Some "1"%char) t s) = true) /\
  (forall s : Simple.Sketch,
     Simple.isActive s = true ->
     exec (Simple.serial_command (Some "1"%char)) s = s /\
     forall t : Z,
       Simple.step (Some "1"%char) t s = Simple.step None t s /\
       Simple.isActive (Simple.step (Some "1"%char) t s) = true).
Proof.
  split; intros s Ha.
  - assert (E : exec (Elaborate.serial_command (Some "1"%char)) s = s).
    { rewrite elab_command_one. destruct s; cbn in *. congruence. }
    split; [exact E|]. intros t. split.
    + unfold Elaborate.step, exec, Elaborate.loop, bind in *.
      destruct (Elaborate.serial_command (Some "1"%char) s) as [u s1] eqn:E1.
      cbn in E. subst s1. destruct s. cbn in Ha. subst. reflexivity.
    + rewrite elab_step_isActive. unfold Elaborate.active_after. rewrite E.
      exact Ha.
  - assert (E : exec (Simple.serial_command (Some "1"%char)) s = s).
    { rewrite simple_command_one. destruct s; cbn in *. congruence. }
    split; [exact E|]. intros t. split.
    + unfold Simple.step, exec, Simple.loop, bind in *.
      destruct (Simple.serial_command (Some "1"%char) s) as [u s1] eqn:E1.
      cbn in E. subst s1. destruct s. cbn in Ha. subst. reflexivity.
    + rewrite simple_step_isActive. unfold Simple.active_after. rewrite E.
      exact Ha.
Qed.

Lemma C9_one_while_active_idempotent_witness :
  let s := Elaborate.step (Some "1"%char) 0 Elaborate.boot in
  Elaborate.isActive s = true /\
  exec (Elaborate.serial_command (Some "1"%char)) s = s.
Proof.
  cbv zeta. split; [reflexivity|].
  apply (proj1 C9_one_while_active_idempotent). reflexivity.
Defined.

(** ** The tone sequencer's cycle *)

(** C5.  The sequencer's state variable is initialised to PAUSE2 (the
    specification's PAUSE_AFTER_BOO) and still holds it when [setup()] has
    run.  One iteration either leaves the variable alone or moves it to its
    successor in the cycle BEEP, PAUSE1, BOO, PAUSE2, BEEP; it moves exactly
    when the sketch is active and the buzzer gate is open, whatever the state,
    so no state is terminal. *)
Theorem C5_tone_cycle :
  Elaborate.toneState Elaborate.globals = Elaborate.PAUSE2 /\
  Elaborate.toneState Elaborate.boot = Elaborate.PAUSE2 /\
  (forall (s : Elaborate.Sketch) (rx : option ascii) (t : Z),
     Elaborate.toneState (Elaborate.step rx t s) = Elaborate.toneState s \/
     Elaborate.toneState (Elaborate.step rx t s)
     = Elaborate.successor (Elaborate.toneState s)) /\
  (forall (s : Elaborate.Sketch) (rx : option ascii) (t : Z),
     Elaborate.toneState (Elaborate.step rx t s)
     = Elaborate.successor (Elaborate.toneState s)
     <-> Elaborate.tone_due rx t s = true) /\
  (forall st : Elaborate.ToneState,
     exists (s : Elaborate.Sketch) (rx : option ascii) (t : Z),
       Elaborate.toneState s = st /\
       Elaborate.toneState (Elaborate.step rx t s) = Elaborate.successor st /\
       Elaborate.successor st <> st).
Proof.
  split; [reflexivity|]. split; [reflexivity|]. split; [|split].
  - intros s rx t. rewrite elab_step_toneState.
    destruct (Elaborate.tone_due rx t s); auto.
  - intros s rx t. rewrite elab_step_toneState.
    destruct (Elaborate.tone_due rx t s); split; intros H; try reflexivity.
    + symmetry in H. apply successor_moves in H. contradiction.
    + discriminate.
  - intros st.
    exists (Elaborate.mkSketch true 0 false 0 st power_on), None, 300.
    split; [reflexivity|]. split; [|apply successor_moves].
    destruct st; reflexivity.
Qed.

Lemma C5_tone_cycle_witness :
  let s := Elaborate.step (Some "1"%char) 0 Elaborate.boot in
  Elaborate.tone_due None 300 s = true /\
  Elaborate.toneState (Elaborate.step None 300 s) = Elaborate.BEEP.
Proof.
  cbv zeta. split; [reflexivity|].
  apply (proj1 (proj2 (proj2 (proj2 C5_tone_cycle)))). reflexivity.
Defined.

(** ** The elapsed-time gates *)

Section Gates.

Variables (rx : option ascii) (t T_last : Z).
Hypothesis elapsed_in_range : 0 <= t - T_last < ULONG_MOD.

Lemma elab_led_gate (s : Elaborate.Sketch) :
  Elaborate.active_after rx s = true ->
  Elaborate.previousLedMillis s = millis T_last ->
  Elaborate.led_due rx t s = (Elaborate.ledInterval <=? t - T_last).
Proof.
  intros Ha Hp. unfold Elaborate.led_due.
  rewrite Ha, Hp, usub_elapsed by assumption. reflexivity.
Qed.

Lemma elab_tone_gate (s : Elaborate.Sketch) :
  Elaborate.active_after rx s = true ->
  Elaborate.previousBuzzerMillis s = millis T_last ->
  Elaborate.tone_due rx t s = (Elaborate.buzzerInterval <=? t - T_last).
Proof.
  intros Ha Hp. unfold Elaborate.tone_due.
  rewrite Ha, Hp, usub_elapsed by assumption. reflexivity.
Qed.

Lemma simple_blink_gate (s : Simple.Sketch) :
  Simple.active_after rx s = true ->
  Simple.previousMillis s = millis T_last ->
  Simple.blink_due rx t s = (Simple.blinkInterval <=? t - T_last).
Proof.
  intros Ha Hp. unfold Simple.blink_due.
  rewrite Ha, Hp, usub_elapsed by assumption. reflexivity.
Qed.

End Gates.

(** While the sketch stays active and the LED gate stays shut, iterations
    leave the LED phase, its timestamp and the LED output where they are. *)
Lemma elab_led_rests (T_last : Z) (its : list (option ascii * Z)) :
  forall s : Elaborate.Sketch,
    Elaborate.isActive s = true ->
    Elaborate.previousLedMillis s = millis T_last ->
    Forall (fun it => fst it <> Some "0"%char /\
                      0 <= snd it - T_last < Elaborate.ledInterval) its ->
    let s' := Elaborate.run its s in
    Elaborate.isActive s' = true /\
    Elaborate.ledState s' = Elaborate.ledState s /\
    Elaborate.previousLedMillis s' = Elaborate.previousLedMillis s /\
    levels (Elaborate.board s') !! Elaborate.LED_PIN
    = levels (Elaborate.board s) !! Elaborate.LED_PIN.
Proof.
  induction its as [|[rx t] its IH]; intros s Ha Hp Hall; cbn.
  - auto.
  - inversion Hall as [|it its' [Hrx Ht] Hrest]; subst. cbn in Hrx, Ht.
    assert (Hact : Elaborate.active_after rx s = true)
      by (apply elab_active_after_not_zero; assumption).
    assert (Hdue : Elaborate.led_due rx t s = false).
    { rewrite (elab_led_gate rx t T_last) by
        (unfold ULONG_MOD, Elaborate.ledInterval in *; try assumption; lia).
      apply Z.leb_gt. lia. }
    destruct (IH (Elaborate.step rx t s)) as (I1 & I2 & I3 & I4).
    + rewrite elab_step_isActive. exact Hact.
    + rewrite elab_step_previousLedMillis, Hdue. exact Hp.
    + exact Hrest.
    + rewrite I1, I2, I3, I4.
      rewrite elab_step_ledState, elab_step_previousLedMillis,
        elab_step_led_pin, Hdue, elab_active_keeps_board by assumption.
      auto.
Qed.

Lemma simple_led_rests (T_last : Z) (its : list (option ascii * Z)) :
  forall s : Simple.Sketch,
    Simple.isActive s = true ->
    Simple.previousMillis s = millis T_last ->
    Forall (fun it => fst it <> Some "0"%char /\
                      0 <= snd it - T_last < Simple.blinkInterval) its ->
    let s' := Simple.run its s in
    Simple.isActive s' = true /\
    Simple.state s' = Simple.state s /\
    Simple.previousMillis s' = Simple.previousMillis s /\
    levels (Simple.board s') !! Simple.LED_PIN
    = levels (Simple.board s) !! Simple.LED_PIN.
Proof.
  induction its as [|[rx t] its IH]; intros s Ha Hp Hall; cbn.
  - auto.
  - inversion Hall as [|it its' [Hrx Ht] Hrest]; subst. cbn in Hrx, Ht.
    assert (Hact : Simple.active_after rx s = true)
      by (apply simple_active_after_not_zero; assumption).
    assert (Hdue : Simple.blink_due rx t s = false).
    { rewrite (simple_blink_gate rx t T_last) by
        (unfold ULONG_MOD, Simple.blinkInterval in *; try assumption; lia).
      apply Z.leb_gt. lia. }
    destruct (IH (Simple.step rx t s)) as (I1 & I2 & I3 & I4).
    + rewrite simple_step_isActive. exact Hact.
    + rewrite simple_step_previousMillis, Hdue. exact Hp.
    + exact Hrest.
    + rewrite I1, I2, I3, I4.
      rewrite simple_step_state, simple_step_previousMillis,
        simple_step_led_pin, Hdue, simple_active_keeps_board by assumption.
      auto.
Qed.

(** C4.  While the controller is active and no ['0'] arrives, the LED phase
    flips once per interval counted from the last flip (100 ms with the tone
    sequencer, 250 ms without).  With the last flip at [T_last]: however many
    iterations run before the interval is over, none of them moves the phase
    or the LED output; the first iteration that runs once the interval is
    over flips the phase, writes the new level to the LED pin in that same
    iteration, and records its own time as the last flip, from which the next
    interval is counted. *)
Theorem C4_led_flips_once_per_interval :
  (forall (s : Elaborate.Sketch) (T_last : Z)
          (early : list (option ascii * Z)) (rx : option ascii) (t : Z),
     Elaborate.isActive s = true ->
     Elaborate.previousLedMillis s = millis T_last ->
     Forall (fun it => fst it <> Some "0"%char /\
                       0 <= snd it - T_last < Elaborate.ledInterval) early ->
     rx <> Some "0"%char ->
     Elaborate.ledInterval <= t - T_last < ULONG_MOD ->
     let s1 := Elaborate.run early s in
     let s2 := Elaborate.step rx t s1 in
     (Elaborate.ledState s1 = Elaborate.ledState s /\
      levels (Elaborate.board s1) !! Elaborate.LED_PIN
      = levels (Elaborate.board s) !! Elaborate.LED_PIN) /\
     (Elaborate.ledState s2 = negb (Elaborate.ledState s) /\
      levels (Elaborate.board s2) !! Elaborate.LED_PIN
      = Some (Elaborate.ledState s2) /\
      Elaborate.previousLedMillis s2 = millis t /\
      Elaborate.isActive s2 = true)) /\
  (forall (s : Simple.Sketch) (T_last : Z)
          (early : list (option ascii * Z)) (rx : option ascii) (t : Z),
     Simple.isActive s = true ->
     Simple.previousMillis s = millis T_last ->
     Forall (fun it => fst it <> Some "0"%char /\
                       0 <= snd it - T_last < Simple.blinkInterval) early ->
     rx <> Some "0"%char ->
     Simple.blinkInterval <= t - T_last < ULONG_MOD ->
     let s1 := Simple.run early s in
     let s2 := Simple.step rx t s1 in
     (Simple.state s1 = Simple.state s /\
      levels (Simple.board s1) !! Simple.LED_PIN
      = levels (Simple.board s) !! Simple.LED_PIN) /\
     (Simple.state s2 = negb (Simple.state s) /\
      levels (Simple.board s2) !! Simple.LED_PIN = Some (Simple.state s2) /\
      Simple.previousMillis s2 = millis t /\
      Simple.isActive s2 = true)).
Proof.
  split; intros s T_last early rx t Ha Hp Hearly Hrx Ht; cbv zeta.
  - destruct (elab_led_rests T_last early s Ha Hp Hearly) as (I1 & I2 & I3 & I4).
    split; [auto|].
    assert (Hact : Elaborate.active_after rx (Elaborate.run early s) = true)
      by (apply elab_active_after_not_zero; assumption).
    assert (Hdue : Elaborate.led_due rx t (Elaborate.run early s) = true).
    { rewrite (elab_led_gate rx t T_last)
        by (try congruence; unfold Elaborate.ledInterval in *; lia).
      apply Z.leb_le. lia. }
    rewrite elab_step_led_pin, elab_step_isActive, elab_step_ledState,
      elab_step_previousLedMillis, Hdue, I2.
    auto.
  - destruct (simple_led_rests T_last early s Ha Hp Hearly)
      as (I1 & I2 & I3 & I4).
    split; [auto|].
    assert (Hact : Simple.active_after rx (Simple.run early s) = true)
      by (apply simple_active_after_not_zero; assumption).
    assert (Hdue : Simple.blink_due rx t (Simple.run early s) = true).
    { rewrite (simple_blink_gate rx t T_last)
        by (try congruence; unfold Simple.blinkInterval in *; lia).
      apply Z.leb_le. lia. }
    rewrite simple_step_led_pin, simple_step_isActive, simple_step_state,
      simple_step_previousMillis, Hdue, I2.
    auto.
Qed.

Lemma C4_led_flips_once_per_interval_witness :
  let s := Elaborate.step (Some "1"%char) 0 Elaborate.boot in
  let early := [(None, 1); (Some "x"%char, 50); (None, 99)] in
  Elaborate.isActive s = true /\
  Elaborate.previousLedMillis s = millis 0 /\
  Forall (fun it => fst it <> Some "0"%char /\
                    0 <= snd it - 0 < Elaborate.ledInterval) early /\
  None <> Some "0"%char /\
  Elaborate.ledInterval <= 100 - 0 < ULONG_MOD /\
  Elaborate.ledState (Elaborate.step None 100 (Elaborate.run early s)) = true.
Proof.
  cbv zeta.
  assert (Hearly :
    Forall (fun it => fst it <> Some "0"%char /\
                      0 <= snd it - 0 < Elaborate.ledInterval)
      [(None, 1); (Some "x"%char, 50); (None, 99)]).
  { repeat constructor; cbn; try discriminate;
      unfold Elaborate.ledInterval; lia. }
  assert (Hrx : @None ascii <> Some "0"%char) by discriminate.
  assert (Ht : Elaborate.ledInterval <= 100 - 0 < ULONG_MOD)
    by (unfold Elaborate.ledInterval, ULONG_MOD; lia).
  repeat (split; [first [reflexivity | assumption]|]).
  exact (proj1 (proj2 (proj1 C4_led_flips_once_per_interval
                         (Elaborate.step (Some "1"%char) 0 Elaborate.boot) 0
                         _ None 100 eq_refl eq_refl Hearly Hrx Ht))).
Defined.

(** C6.  Every elapsed-time check subtracts the stored timestamp from the
    current [millis()] value in 32-bit unsigned arithmetic and compares the
    difference with its interval.  When the stored timestamp is the clock
    reading of a moment [T_last] and the iteration runs at [T_now], a true
    [T_now - T_last] milliseconds later with that duration below 2^32, the
    difference is exactly the true duration, even if the counter wrapped in
    between; so each of the three gates (LED and buzzer in the tone-sequencer
    sketch, the blink gate in the other) opens exactly when the true duration
    has reached the interval. *)
Theorem C6_elapsed_check_survives_wraparound (T_last T_now : Z) :
  0 <= T_now - T_last < ULONG_MOD ->
  usub (millis T_now) (millis T_last) = T_now - T_last /\
  (forall (s : Elaborate.Sketch) (rx : option ascii),
     Elaborate.active_after rx s = true ->
     Elaborate.previousLedMillis s = millis T_last ->
     (Elaborate.ledState (Elaborate.step rx T_now s)
      = negb (Elaborate.ledState s)
      <-> Elaborate.ledInterval <= T_now - T_last)) /\
  (forall (s : Elaborate.Sketch) (rx : option ascii),
     Elaborate.active_after rx s = true ->
     Elaborate.previousBuzzerMillis s = millis T_last ->
     (Elaborate.toneState (Elaborate.step rx T_now s)
      = Elaborate.successor (Elaborate.toneState s)
      <-> Elaborate.buzzerInterval <= T_now - T_last)) /\
  (forall (s : Simple.Sketch) (rx : option ascii),
     Simple.active_after rx s = true ->
     Simple.previousMillis s = millis T_last ->
     (Simple.state (Simple.step rx T_now s) = negb (Simple.state s)
      <-> Simple.blinkInterval <= T_now - T_last)).
Proof.
  intros Hrange. split; [apply usub_elapsed; exact Hrange|].
  split; [|split]; intros s rx Ha Hp.
  - rewrite elab_step_ledState, (elab_led_gate rx T_now T_last) by assumption.
    destruct (Z.leb_spec Elaborate.ledInterval (T_now - T_last)).
    + tauto.
    + split; [|lia]. destruct (Elaborate.ledState s); discriminate.
  - rewrite elab_step_toneState, (elab_tone_gate rx T_now T_last) by assumption.
    destruct (Z.leb_spec Elaborate.buzzerInterval (T_now - T_last)).
    + tauto.
    + split; [|lia]. intros H'. symmetry in H'.
      apply successor_moves in H'. contradiction.
  - rewrite simple_step_state, (simple_blink_gate rx T_now T_last)
      by assumption.
    destruct (Z.leb_spec Simple.blinkInterval (T_now - T_last)).
    + tauto.
    + split; [|lia]. destruct (Simple.state s); discriminate.
Qed.

Lemma C6_elapsed_check_survives_wraparound_witness :
  0 <= (2 ^ 32 + 60) - (2 ^ 32 - 50) < ULONG_MOD /\
  millis (2 ^ 32 + 60) = 60 /\
  millis (2 ^ 32 - 50) = 4294967246 /\
  usub (millis (2 ^ 32 + 60)) (millis (2 ^ 32 - 50))
  = (2 ^ 32 + 60) - (2 ^ 32 - 50).
Proof.
  assert (H : 0 <= (2 ^ 32 + 60) - (2 ^ 32 - 50) < ULONG_MOD)
    by (unfold ULONG_MOD; lia).
  split; [exact H|]. split; [reflexivity|]. split; [reflexivity|].
  exact (proj1 (C6_elapsed_check_survives_wraparound _ _ H)).
Defined.

(** ** Deactivation and re-activation *)

(** Iterations that leave the sketch inactive move neither phase variable nor
    timestamp, and cannot raise an output that is already quiescent. *)
Lemma elab_idle_run (idle : list (option ascii * Z)) :
  forall s : Elaborate.Sketch,
    Elaborate.isActive s = false ->
    Forall (fun it => fst it <> Some "1"%char) idle ->
    let s' := Elaborate.run idle s in
    Elaborate.isActive s' = false /\
    Elaborate.toneState s' = Elaborate.toneState s /\
    Elaborate.ledState s' = Elaborate.ledState s /\
    Elaborate.previousLedMillis s' = Elaborate.previousLedMillis s /\
    Elaborate.previousBuzzerMillis s' = Elaborate.previousBuzzerMillis s /\
    (levels (Elaborate.board s) !! Elaborate.LED_PIN = Some LOW ->
     levels (Elaborate.board s') !! Elaborate.LED_PIN = Some LOW) /\
    (tones (Elaborate.board s) !! Elaborate.BUZZER_PIN = None ->
     tones (Elaborate.board s') !! Elaborate.BUZZER_PIN = None).
Proof.
  induction idle as [|[rx t] idle IH]; intros s Ha Hall; cbn.
  - tauto.
  - inversion Hall as [|it idle' Hrx Hrest]; subst. cbn in Hrx.
    assert (Hact : Elaborate.active_after rx s = false)
      by (apply elab_inactive_after_not_one; assumption).
    assert (Hled : Elaborate.led_due rx t s = false)
      by (unfold Elaborate.led_due; rewrite Hact; reflexivity).
    assert (Htone : Elaborate.tone_due rx t s = false)
      by (unfold Elaborate.tone_due; rewrite Hact; reflexivity).
    destruct (IH (Elaborate.step rx t s)) as (I1 & I2 & I3 & I4 & I5 & I6 & I7).
    + rewrite elab_step_isActive. exact Hact.
    + exact Hrest.
    + rewrite I1, I2, I3, I4, I5.
      rewrite elab_step_toneState, elab_step_ledState,
        elab_step_previousLedMillis, elab_step_previousBuzzerMillis,
        Hled, Htone.
      repeat (split; [reflexivity|]). split; intros H; [apply I6|apply I7].
      * rewrite elab_step_led_pin, Hled.
        destruct (elab_command_led_pin rx s) as [E|E]; [exact E|].
        rewrite E. exact H.
      * rewrite elab_step_buzzer, Htone.
        destruct (elab_command_buzzer rx s) as [E|E]; [exact E|].
        rewrite E. exact H.
Qed.

(** C7.  Deactivation by ['0'] forces the outputs and nothing else: after the
    ['0'] and any number of further iterations in which no ['1'] arrives, the
    sequencer state, the LED phase and both timestamps are what they were
    before the ['0'], the LED output is low and the buzzer silent.  The
    iteration that then reads ['1'] works from the retained variables and
    timestamps: its gates compare the current time with the timestamps kept
    from before the deactivation, so when those are an interval or more in
    the past the LED flips and the sequencer advances in the re-activating
    iteration itself, without waiting a full interval. *)
Theorem C7_deactivation_retains_phase
    (s : Elaborate.Sketch) (t0 : Z) (idle : list (option ascii * Z)) :
  Forall (fun it => fst it <> Some "1"%char) idle ->
  let s1 := Elaborate.run ((Some "0"%char, t0) :: idle) s in
  (Elaborate.isActive s1 = false /\
   Elaborate.toneState s1 = Elaborate.toneState s /\
   Elaborate.ledState s1 = Elaborate.ledState s /\
   Elaborate.previousLedMillis s1 = Elaborate.previousLedMillis s /\
   Elaborate.previousBuzzerMillis s1 = Elaborate.previousBuzzerMillis s /\
   levels (Elaborate.board s1) !! Elaborate.LED_PIN = Some LOW /\
   tones (Elaborate.board s1) !! Elaborate.BUZZER_PIN = None) /\
  forall t1 : Z,
    let s2 := Elaborate.step (Some "1"%char) t1 s1 in
    Elaborate.isActive s2 = true /\
    Elaborate.ledState s2 =
      (if Elaborate.ledInterval
          <=? usub (millis t1) (Elaborate.previousLedMillis s)
       then negb (Elaborate.ledState s) else Elaborate.ledState s) /\
    Elaborate.toneState s2 =
      (if Elaborate.buzzerInterval
          <=? usub (millis t1) (Elaborate.previousBuzzerMillis s)
       then Elaborate.successor (Elaborate.toneState s)
       else Elaborate.toneState s).
Proof.
  intros Hidle. cbn [Elaborate.run]. cbv zeta.
  pose proof (Ezero := elab_command_zero s).
  assert (H0 : Elaborate.active_after (Some "0"%char) s = false)
    by (unfold Elaborate.active_after; rewrite Ezero; reflexivity).
  assert (Hled : Elaborate.led_due (Some "0"%char) t0 s = false)
    by (unfold Elaborate.led_due; rewrite H0; reflexivity).
  assert (Htone : Elaborate.tone_due (Some "0"%char) t0 s = false)
    by (unfold Elaborate.tone_due; rewrite H0; reflexivity).
  destruct (elab_idle_run idle (Elaborate.step (Some "0"%char) t0 s))
    as (I1 & I2 & I3 & I4 & I5 & I6 & I7).
  { rewrite elab_step_isActive. exact H0. }
  { exact Hidle. }
  rewrite elab_step_toneState, Htone in I2.
  rewrite elab_step_ledState, Hled in I3.
  rewrite elab_step_previousLedMillis, Hled in I4.
  rewrite elab_step_previousBuzzerMillis, Htone in I5.
  split.
  - repeat (split; [assumption|]). split; [apply I6|apply I7].
    + rewrite elab_step_led_pin, Hled, Ezero. cbn [Elaborate.board].
      ElaborateFacts.pins.
    + rewrite elab_step_buzzer, Htone, Ezero. cbn [Elaborate.board].
      ElaborateFacts.pins.
  - intros t1.
    rewrite elab_step_isActive, elab_step_ledState, elab_step_toneState.
    unfold Elaborate.led_due, Elaborate.tone_due, Elaborate.active_after.
    rewrite elab_command_one. cbn [Elaborate.isActive andb].
    rewrite I2, I3, I4, I5. auto.
Qed.

Lemma C7_deactivation_retains_phase_witness :
  let s := Elaborate.run [(Some "1"%char, 0); (None, 100)] Elaborate.boot in
  let idle := [(None, 151); (Some "x"%char, 400); (Some "0"%char, 900)] in
  Forall (fun it => fst it <> Some "1"%char) idle /\
  Elaborate.ledState s = true /\
  let s1 := Elaborate.run ((Some "0"%char, 150) :: idle) s in
  Elaborate.ledState s1 = Elaborate.ledState s /\
  Elaborate.ledState (Elaborate.step (Some "1"%char) 1000 s1) = false.
Proof.
  cbv zeta.
  assert (Hidle : Forall (fun it => fst it <> Some "1"%char)
            [(None, 151); (Some "x"%char, 400); (Some "0"%char, 900)])
    by (repeat constructor; cbn; discriminate).
  split; [exact Hidle|]. split; [reflexivity|].
  pose proof (C7_deactivation_retains_phase
    (Elaborate.run [(Some "1"%char, 0); (None, 100)] Elaborate.boot)
    150 _ Hidle) as [(_ & _ & Hled & _) Hre].
  split; [exact Hled|].
  destruct (Hre 1000) as (_ & Hflip & _). rewrite Hflip. reflexivity.
Defined.

(** With the phase variable true and the LED output low, iterations that do
    not open the gate keep both as they are. *)
Lemma elab_dark_phase_rests (its : list (option ascii * Z)) :
  forall s : Elaborate.Sketch,
    Elaborate.ledState s = true ->
    levels (Elaborate.board s) !! Elaborate.LED_PIN = Some LOW ->
    Elaborate.led_quiet its s ->
    Elaborate.ledState (Elaborate.run its s) = true /\
    levels (Elaborate.board (Elaborate.run its s)) !! Elaborate.LED_PIN
    = Some LOW.
Proof.
  induction its as [|[rx t] its IH]; intros s Hphase Hpin Hquiet; cbn.
  - auto.
  - destruct Hquiet as [Hdue Hrest]. apply IH.
    + rewrite elab_step_ledState, Hdue. exact Hphase.
    + rewrite elab_step_led_pin, Hdue.
      destruct (elab_command_led_pin rx s) as [E|E]; [exact E|].
      rewrite E. exact Hpin.
    + exact Hrest.
Qed.

Lemma simple_dark_phase_rests (its : list (option ascii * Z)) :
  forall s : Simple.Sketch,
    Simple.state s = true ->
    levels (Simple.board s) !! Simple.LED_PIN = Some LOW ->
    Simple.blink_quiet its s ->
    Simple.state (Simple.run its s) = true /\
    levels (Simple.board (Simple.run its s)) !! Simple.LED_PIN = Some LOW.
Proof.
  induction its as [|[rx t] its IH]; intros s Hphase Hpin Hquiet; cbn.
  - auto.
  - destruct Hquiet as [Hdue Hrest]. apply IH.
    + rewrite simple_step_state, Hdue. exact Hphase.
    + rewrite simple_step_led_pin, Hdue.
      destruct (simple_command_pins rx s) as [[E _]|E]; [exact E|].
      rewrite E. exact Hpin.
    + exact Hrest.
Qed.

(** C10.  The byte ['0'] drives the LED output low but leaves the stored
    phase ([ledState], respectively [state]) alone.  If the phase was true
    when the ['0'] arrived, then after that iteration the phase is still true
    while the output is low, and they go on disagreeing through every
    iteration that does not open the gate (idle ones, the re-activating one,
    those waiting for the interval).  The first iteration that does open the
    gate flips the phase to false and writes that to the LED: the output is
    low before this first flip and low after it, so the flip shows no
    turn-on. *)
Theorem C10_first_flip_after_reactivation_stays_dark :
  (forall (s : Elaborate.Sketch) (t0 : Z) (its : list (option ascii * Z))
          (rx : option ascii) (t : Z),
     Elaborate.ledState s = true ->
     let s1 := Elaborate.run ((Some "0"%char, t0) :: its) s in
     Elaborate.led_quiet its (Elaborate.step (Some "0"%char) t0 s) ->
     Elaborate.led_due rx t s1 = true ->
     (Elaborate.ledState s1 = true /\
      levels (Elaborate.board s1) !! Elaborate.LED_PIN = Some LOW) /\
     (Elaborate.ledState (Elaborate.step rx t s1) = false /\
      levels (Elaborate.board (Elaborate.step rx t s1)) !! Elaborate.LED_PIN
      = Some LOW)) /\
  (forall (s : Simple.Sketch) (t0 : Z) (its : list (option ascii * Z))
          (rx : option ascii) (t : Z),
     Simple.state s = true ->
     let s1 := Simple.run ((Some "0"%char, t0) :: its) s in
     Simple.blink_quiet its (Simple.step (Some "0"%char) t0 s) ->
     Simple.blink_due rx t s1 = true ->
     (Simple.state s1 = true /\
      levels (Simple.board s1) !! Simple.LED_PIN = Some LOW) /\
     (Simple.state (Simple.step rx t s1) = false /\
      levels (Simple.board (Simple.step rx t s1)) !! Simple.LED_PIN
      = Some LOW)).
Proof.
  split; intros s t0 its rx t Hphase; cbn [Elaborate.run Simple.run];
    cbv zeta; intros Hquiet Hdue.
  - assert (H0 : Elaborate.led_due (Some "0"%char) t0 s = false).
    { unfold Elaborate.led_due, Elaborate.active_after.
      rewrite elab_command_zero. reflexivity. }
    destruct (elab_dark_phase_rests its
                (Elaborate.step (Some "0"%char) t0 s)) as [Hp Hl].
    + rewrite elab_step_ledState, H0. exact Hphase.
    + rewrite elab_step_led_pin, H0, elab_command_zero.
      cbn [Elaborate.board]. ElaborateFacts.pins.
    + exact Hquiet.
    + split; [auto|].
      rewrite elab_step_ledState, elab_step_led_pin, Hdue, Hp. auto.
  - assert (H0 : Simple.blink_due (Some "0"%char) t0 s = false).
    { unfold Simple.blink_due, Simple.active_after.
      rewrite simple_command_zero. reflexivity. }
    destruct (simple_dark_phase_rests its
                (Simple.step (Some "0"%char) t0 s)) as [Hp Hl].
    + rewrite simple_step_state, H0. exact Hphase.
    + rewrite simple_step_led_pin, H0, simple_command_zero.
      cbn [Simple.board]. SimpleFacts.pins.
    + exact Hquiet.
    + split; [auto|].
      rewrite simple_step_state, simple_step_led_pin, Hdue, Hp. auto.
Qed.

Lemma C10_first_flip_after_reactivation_stays_dark_witness :
  let s := Simple.run [(Some "1"%char, 0); (None, 250)] Simple.boot in
  let its := [(None, 300); (Some "1"%char, 400); (None, 499)] in
  Simple.state s = true /\
  levels (Simple.board s) !! Simple.LED_PIN = Some HIGH /\
  Simple.blink_quiet its (Simple.step (Some "0"%char) 260 s) /\
  let s1 := Simple.run ((Some "0"%char, 260) :: its) s in
  Simple.blink_due None 500 s1 = true /\
  Simple.state (Simple.step None 500 s1) = false /\
  levels (Simple.board (Simple.step None 500 s1)) !! Simple.LED_PIN
  = Some LOW.
Proof.
  cbv zeta.
  assert (Hquiet : Simple.blink_quiet
            [(None, 300); (Some "1"%char, 400); (None, 499)]
            (Simple.step (Some "0"%char) 260
               (Simple.run [(Some "1"%char, 0); (None, 250)] Simple.boot)))
    by (cbn; repeat split; reflexivity).
  split; [reflexivity|]. split; [reflexivity|]. split; [exact Hquiet|].
  split; [reflexivity|].
  exact (proj2 (proj2 C10_first_flip_after_reactivation_stays_dark
                  (Simple.run [(Some "1"%char, 0); (None, 250)] Simple.boot)
                  260 _ None 500 eq_refl Hquiet eq_refl)).
Defined.

(** ** What the buzzer does in each sequencer state *)

(** Whatever has sounded is explained by the state variable: the buzzer is
    silent, or it carries the tone started by the case that moved the
    variable to its present value. *)
Lemma elab_buzzer_explained (history : list (option ascii * Z)) :
  forall s : Elaborate.Sketch,
    (tones (Elaborate.board s) !! Elaborate.BUZZER_PIN = None \/
     tones (Elaborate.board s) !! Elaborate.BUZZER_PIN
     = Elaborate.sounding (Elaborate.toneState s)) ->
    let s' := Elaborate.run history s in
    tones (Elaborate.board s') !! Elaborate.BUZZER_PIN = None \/
    tones (Elaborate.board s') !! Elaborate.BUZZER_PIN
    = Elaborate.sounding (Elaborate.toneState s').
Proof.
  induction history as [|[rx t] history IH]; intros s Hinv; cbn.
  - exact Hinv.
  - apply IH. rewrite elab_step_buzzer, elab_step_toneState.
    destruct (Elaborate.tone_due rx t s).
    + destruct (Elaborate.toneState s); cbn; auto.
    + destruct (elab_command_buzzer rx s) as [E|E]; [left; exact E|].
      rewrite E. exact Hinv.
Qed.

(** C2, as stated, fails.  Activated at t = 0 and run at 100, 200 and 300 ms,
    the sketch has its sequencer in BEEP after the iteration at 300 ms, and
    the buzzer carries no tone: the iteration took the PAUSE2 case, which
    calls [noTone] and only names BEEP as the case to take next. *)
Lemma C2_counterexample :
  let s := Elaborate.run
             [(Some "1"%char, 0); (None, 100); (None, 200); (None, 300)]
             Elaborate.boot in
  Elaborate.toneState s = Elaborate.BEEP /\
  tones (Elaborate.board s) !! Elaborate.BUZZER_PIN = None /\
  tones (Elaborate.board s) !! Elaborate.BUZZER_PIN <> Some 1000.
Proof. vm_compute. repeat split. discriminate. Qed.

(** C2, amended.  In the tone-sequencer sketch the state variable names the
    case the switch takes at the next opening of the buzzer gate, and each
    case acts as it leaves: taken in BEEP the switch starts the 1000 Hz tone
    and moves to PAUSE1, taken in BOO it starts the 600 Hz tone and moves to
    PAUSE2, taken in PAUSE1 or PAUSE2 it silences the buzzer and moves to BOO
    or BEEP.  So in every state reached from start-up the buzzer is silent
    whenever the variable holds BEEP or BOO, and a tone that sounds is 1000 Hz
    under PAUSE1 and 600 Hz under PAUSE2.  In particular, after activation at
    t = 0 the sequencer enters BEEP at t = 300 ms with the buzzer silent. *)
Theorem C2_amended_tone_started_on_leaving :
  (forall (s : Elaborate.Sketch) (rx : option ascii) (t : Z),
     Elaborate.tone_due rx t s = true ->
     let s' := Elaborate.step rx t s in
     Elaborate.toneState s' = Elaborate.successor (Elaborate.toneState s) /\
     tones (Elaborate.board s') !! Elaborate.BUZZER_PIN =
       match Elaborate.toneState s with
       | Elaborate.BEEP => Some 1000
       | Elaborate.BOO => Some 600
       | Elaborate.PAUSE1 | Elaborate.PAUSE2 => None
       end) /\
  (forall history : list (option ascii * Z),
     let s := Elaborate.run history Elaborate.boot in
     match Elaborate.toneState s with
     | Elaborate.BEEP | Elaborate.BOO =>
         tones (Elaborate.board s) !! Elaborate.BUZZER_PIN = None
     | Elaborate.PAUSE1 =>
         tones (Elaborate.board s) !! Elaborate.BUZZER_PIN = None \/
         tones (Elaborate.board s) !! Elaborate.BUZZER_PIN = Some 1000
     | Elaborate.PAUSE2 =>
         tones (Elaborate.board s) !! Elaborate.BUZZER_PIN = None \/
         tones (Elaborate.board s) !! Elaborate.BUZZER_PIN = Some 600
     end) /\
  (let s := Elaborate.run
              [(Some "1"%char, 0); (None, 100); (None, 200); (None, 300)]
              Elaborate.boot in
   Elaborate.toneState s = Elaborate.BEEP /\
   tones (Elaborate.board s) !! Elaborate.BUZZER_PIN = None).
Proof.
  split; [|split].
  - intros s rx t Hdue. cbv zeta.
    rewrite elab_step_toneState, elab_step_buzzer, Hdue. auto.
  - intros history. cbv zeta.
    pose proof (elab_buzzer_explained history Elaborate.boot) as H.
    cbv zeta in H.
    destruct H as [H|H]; [left; reflexivity| |];
      destruct (Elaborate.toneState (Elaborate.run history Elaborate.boot));
      cbn in *; auto.
  - vm_compute. auto.
Qed.

Lemma C2_amended_tone_started_on_leaving_witness :
  let s := Elaborate.run
             [(Some "1"%char, 0); (None, 300)] Elaborate.boot in
  Elaborate.toneState s = Elaborate.BEEP /\
  Elaborate.tone_due None 800 s = true /\
  tones (Elaborate.board (Elaborate.step None 800 s)) !! Elaborate.BUZZER_PIN
  = Some 1000.
Proof.
  cbv zeta. split; [reflexivity|]. split; [reflexivity|].
  exact (proj2 (proj1 C2_amended_tone_started_on_leaving
                  (Elaborate.run [(Some "1"%char, 0); (None, 300)]
                     Elaborate.boot)
                  None 800 eq_refl)).
Defined.

(** ** How long each sequencer state is held *)

(** With the timestamp advanced by the silence, the buzzer gate is back in
    step with the clock from the moment the clock has reached the advanced
    timestamp. *)
Lemma elab_tone_gate_advanced
    (s : Elaborate.Sketch) (rx : option ascii) (T0 T : Z) :
  Elaborate.active_after rx s = true ->
  Elaborate.previousBuzzerMillis s
  = uadd (millis T0) Elaborate.buzzerSilence ->
  Elaborate.buzzerSilence <= T - T0 < ULONG_MOD + Elaborate.buzzerSilence ->
  Elaborate.tone_due rx T s
  = (Elaborate.buzzerInterval + Elaborate.buzzerSilence <=? T - T0).
Proof.
  intros Ha Hp Hr. unfold Elaborate.tone_due.
  rewrite Ha, Hp, usub_advanced, wrap_small by lia.
  cbn [andb]. unfold Elaborate.buzzerInterval, Elaborate.buzzerSilence.
  destruct (Z.leb_spec 300 (T - T0 - 200)), (Z.leb_spec (300 + 200) (T - T0));
    try reflexivity; lia.
Qed.

(** Before the clock has reached the advanced timestamp the unsigned
    difference is just below 2^32, and the gate is open. *)
Remark elab_tone_gate_before_advanced_stamp
    (s : Elaborate.Sketch) (rx : option ascii) (T0 T : Z) :
  Elaborate.active_after rx s = true ->
  Elaborate.previousBuzzerMillis s
  = uadd (millis T0) Elaborate.buzzerSilence ->
  0 <= T - T0 < Elaborate.buzzerSilence ->
  usub (millis T) (Elaborate.previousBuzzerMillis s)
  = ULONG_MOD - Elaborate.buzzerSilence + (T - T0) /\
  Elaborate.tone_due rx T s = true.
Proof.
  intros Ha Hp Hr. unfold Elaborate.tone_due.
  rewrite Ha, Hp, usub_advanced. cbn [andb].
  unfold Elaborate.buzzerSilence, Elaborate.buzzerInterval, ULONG_MOD in *.
  assert (E : wrap (T - T0 - 200) = 2 ^ 32 - 200 + (T - T0)).
  { unfold wrap, ULONG_MOD.
    replace (T - T0 - 200) with ((2 ^ 32 - 200 + (T - T0)) + (-1) * 2 ^ 32)
      by lia.
    rewrite Z_mod_plus_full. apply Z.mod_small. lia. }
  rewrite E. split; [reflexivity|]. apply Z.leb_le. lia.
Qed.

(** C3, as stated, fails.  Activated at t = 0, the sketch takes the PAUSE2
    case at 300 ms (state BEEP, timestamp 500) and, the unsigned difference
    300 - 500 being 4294967096, the BEEP case in the next iteration, still at
    300 ms: PAUSE1 is entered at 300 ms with timestamp 300.  It is still held
    at 599 ms and is left for BOO at 600 ms: held 300 ms, not 500. *)
Lemma C3_counterexample :
  let entered := Elaborate.run
                   [(Some "1"%char, 0); (None, 300); (None, 300)]
                   Elaborate.boot in
  Elaborate.toneState
    (Elaborate.run [(Some "1"%char, 0); (None, 300)] Elaborate.boot)
  = Elaborate.BEEP /\
  Elaborate.toneState entered = Elaborate.PAUSE1 /\
  Elaborate.previousBuzzerMillis entered = 300 /\
  Elaborate.toneState (Elaborate.step None 599 entered) = Elaborate.PAUSE1 /\
  Elaborate.toneState (Elaborate.step None 600 entered) = Elaborate.BOO.
Proof. vm_compute. repeat split. Qed.

(** C3, amended.  In the tone-sequencer sketch, while active, the extra
    200 ms are added to the timestamp by the PAUSE cases as they are left, so
    they lengthen the state entered from a pause, not the pause.  PAUSE1 and
    PAUSE2, entered at [T0], carry the timestamp of [T0] and are held for the
    base interval only: an iteration at [T] takes them to their successor
    exactly when [T - T0] has reached 300 ms.  BEEP and BOO, entered at [T0],
    carry the timestamp of [T0] advanced by 200 ms, and an iteration at [T]
    that runs when the clock has reached that advanced timestamp takes them
    to their successor exactly when [T - T0] has reached 500 ms. *)
Theorem C3_amended_hold_times
    (s0 : Elaborate.Sketch) (rx0 rx : option ascii) (T0 T : Z) :
  Elaborate.tone_due rx0 T0 s0 = true ->
  let s := Elaborate.step rx0 T0 s0 in
  Elaborate.active_after rx s = true ->
  match Elaborate.toneState s with
  | Elaborate.PAUSE1 | Elaborate.PAUSE2 =>
      Elaborate.previousBuzzerMillis s = millis T0 /\
      (0 <= T - T0 < ULONG_MOD ->
       (Elaborate.toneState (Elaborate.step rx T s)
        = Elaborate.successor (Elaborate.toneState s)
        <-> Elaborate.buzzerInterval <= T - T0))
  | Elaborate.BEEP | Elaborate.BOO =>
      Elaborate.previousBuzzerMillis s
      = uadd (millis T0) Elaborate.buzzerSilence /\
      (Elaborate.buzzerSilence <= T - T0
         < ULONG_MOD + Elaborate.buzzerSilence ->
       (Elaborate.toneState (Elaborate.step rx T s)
        = Elaborate.successor (Elaborate.toneState s)
        <-> Elaborate.buzzerInterval + Elaborate.buzzerSilence <= T - T0))
  end.
Proof.
  intros Hdue0. cbv zeta. intros Hact.
  pose proof (elab_step_toneState rx0 T0 s0) as Hst.
  pose proof (elab_step_previousBuzzerMillis rx0 T0 s0) as Hstamp.
  rewrite Hdue0 in Hst, Hstamp.
  generalize dependent (Elaborate.step rx0 T0 s0). intros s Hact Hst Hstamp.
  destruct (Elaborate.toneState s0); cbn in Hst; rewrite Hst; cbv iota;
    (split; [exact Hstamp|]); intros Hr;
    rewrite elab_step_toneState, Hst, successor_taken.
  - rewrite (elab_tone_gate rx T T0) by assumption. apply Z.leb_le.
  - rewrite (elab_tone_gate_advanced _ rx T0 T) by assumption. apply Z.leb_le.
  - rewrite (elab_tone_gate rx T T0) by assumption. apply Z.leb_le.
  - rewrite (elab_tone_gate_advanced _ rx T0 T) by assumption. apply Z.leb_le.
Qed.

Lemma C3_amended_hold_times_witness :
  let s0 := Elaborate.run
              [(Some "1"%char, 0); (None, 300)] Elaborate.boot in
  Elaborate.tone_due None 800 s0 = true /\
  Elaborate.active_after None (Elaborate.step None 800 s0) = true /\
  Elaborate.toneState (Elaborate.step None 800 s0) = Elaborate.PAUSE1 /\
  Elaborate.previousBuzzerMillis (Elaborate.step None 800 s0) = millis 800 /\
  0 <= 1100 - 800 < ULONG_MOD /\
  Elaborate.toneState (Elaborate.step None 1100 (Elaborate.step None 800 s0))
  = Elaborate.BOO.
Proof.
  cbv zeta.
  assert (Hr : 0 <= 1100 - 800 < ULONG_MOD) by (unfold ULONG_MOD; lia).
  pose proof (C3_amended_hold_times
    (Elaborate.run [(Some "1"%char, 0); (None, 300)] Elaborate.boot)
    None None 800 1100 eq_refl eq_refl) as [Hstamp Hhold].
  repeat (split; [first [reflexivity | assumption]|]).
  apply (proj2 (Hhold Hr)). unfold Elaborate.buzzerInterval. lia.
Defined.

(** ** Invariants of the states reached from start-up *)

(** A property kept by every iteration is kept by every run. *)
Lemma elab_run_invariant (P : Elaborate.Sketch -> Prop) :
  (forall s rx t, P s -> P (Elaborate.step rx t s)) ->
  forall history s, P s -> P (Elaborate.run history s).
Proof.
  intros Hstep history. induction history as [|[rx t] history IH];
    intros s Hs; cbn; [exact Hs|]. apply IH, Hstep, Hs.
Qed.

Lemma simple_run_invariant (P : Simple.Sketch -> Prop) :
  (forall s rx t, P s -> P (Simple.step rx t s)) ->
  forall history s, P s -> P (Simple.run history s).
Proof.
  intros Hstep history. induction history as [|[rx t] history IH];
    intros s Hs; cbn; [exact Hs|]. apply IH, Hstep, Hs.
Qed.

(** A serial block that leaves the sketch inactive has either just forced the
    outputs, or found the sketch inactive and written nothing. *)
Lemma elab_inactive_command (rx : option ascii) (s : Elaborate.Sketch) :
  Elaborate.active_after rx s = false ->
  (levels (Elaborate.board (exec (Elaborate.serial_command rx) s))
     !! Elaborate.LED_PIN = Some LOW /\
   tones (Elaborate.board (exec (Elaborate.serial_command rx) s))
     !! Elaborate.BUZZER_PIN = None) \/
  (Elaborate.board (exec (Elaborate.serial_command rx) s) = Elaborate.board s
   /\ Elaborate.isActive s = false).
Proof.
  destruct s. ElaborateFacts.crunch; intros; try congruence; auto.
  left. split; ElaborateFacts.pins.
Qed.

Lemma simple_inactive_command (rx : option ascii) (s : Simple.Sketch) :
  Simple.active_after rx s = false ->
  (levels (Simple.board (exec (Simple.serial_command rx) s))
     !! Simple.LED_PIN = Some LOW /\
   levels (Simple.board (exec (Simple.serial_command rx) s))
     !! Simple.BUZZER_PIN = Some LOW) \/
  (Simple.board (exec (Simple.serial_command rx) s) = Simple.board s
   /\ Simple.isActive s = false).
Proof.
  destruct s. SimpleFacts.crunch; intros; try congruence; auto.
  left. split; SimpleFacts.pins.
Qed.

Lemma elab_green_level (history : list (option ascii * Z)) :
  levels (Elaborate.board (Elaborate.run history Elaborate.boot))
    !! Elaborate.LED_PIN_GREEN
  = Some (negb (Elaborate.isActive (Elaborate.run history Elaborate.boot))).
Proof.
  apply (elab_run_invariant
    (fun s => levels (Elaborate.board s) !! Elaborate.LED_PIN_GREEN
              = Some (negb (Elaborate.isActive s)))).
  - intros s rx t _. rewrite elab_step_green_pin, elab_step_isActive.
    reflexivity.
  - reflexivity.
Qed.

(** X1.  The green idle indicator mirrors the activation flag.  [setup()]
    leaves it on with the sketch inactive; every iteration of [loop()], from
    any state, ends with the green pin at the opposite level of [isActive];
    so in every state reached from start-up the green LED is on exactly when
    the sketch is inactive. *)
Theorem X1_idle_indicator_mirrors_activation :
  (levels (Elaborate.board Elaborate.boot) !! Elaborate.LED_PIN_GREEN
   = Some HIGH /\ Elaborate.isActive Elaborate.boot = false) /\
  (forall (s : Elaborate.Sketch) (rx : option ascii) (t : Z),
     let s' := Elaborate.step rx t s in
     levels (Elaborate.board s') !! Elaborate.LED_PIN_GREEN
     = Some (negb (Elaborate.isActive s'))) /\
  (forall history : list (option ascii * Z),
     let s := Elaborate.run history Elaborate.boot in
     levels (Elaborate.board s) !! Elaborate.LED_PIN_GREEN
     = Some (negb (Elaborate.isActive s))).
Proof.
  assert (Hstep : forall s rx t,
    levels (Elaborate.board (Elaborate.step rx t s)) !! Elaborate.LED_PIN_GREEN
    = Some (negb (Elaborate.isActive (Elaborate.step rx t s)))).
  { intros s rx t. rewrite elab_step_green_pin, elab_step_isActive.
    reflexivity. }
  split; [split; reflexivity|]. split; [exact Hstep|].
  intros history. cbv zeta. apply elab_green_level.
Qed.

Lemma simple_buzzer_level (history : list (option ascii * Z)) :
  levels (Simple.board (Simple.run history Simple.boot)) !! Simple.BUZZER_PIN
  = levels (Simple.board (Simple.run history Simple.boot)) !! Simple.LED_PIN.
Proof.
  apply (simple_run_invariant
    (fun s => levels (Simple.board s) !! Simple.BUZZER_PIN
              = levels (Simple.board s) !! Simple.LED_PIN)).
  - intros s rx t Hs.
    rewrite simple_step_buzzer_pin, simple_step_led_pin.
    destruct (Simple.blink_due rx t s); [reflexivity|].
    destruct (simple_command_pins rx s) as [[E1 E2]|E].
    + rewrite E1, E2. reflexivity.
    + rewrite E. exact Hs.
  - reflexivity.
Qed.

(** X2.  In the sketch without tone sequencer the buzzer pin carries the LED
    level: both come up low, ['0'] drives both low, every flip writes the new
    phase to both.  In every state reached from start-up the two pins are at
    the same level. *)
Theorem X2_simple_buzzer_follows_led (history : list (option ascii * Z)) :
  let s := Simple.run history Simple.boot in
  levels (Simple.board s) !! Simple.BUZZER_PIN
  = levels (Simple.board s) !! Simple.LED_PIN.
Proof. cbv zeta. apply simple_buzzer_level. Qed.

(** The outputs are quiescent whenever the sketch is inactive, and the LED
    is lit only under a true phase. *)
Lemma elab_outputs_invariant (history : list (option ascii * Z)) :
  let s := Elaborate.run history Elaborate.boot in
  (Elaborate.isActive s = false ->
   levels (Elaborate.board s) !! Elaborate.LED_PIN = Some LOW /\
   tones (Elaborate.board s) !! Elaborate.BUZZER_PIN = None) /\
  (levels (Elaborate.board s) !! Elaborate.LED_PIN = Some HIGH ->
   Elaborate.ledState s = true).
Proof.
  cbv zeta.
  apply (elab_run_invariant (fun s =>
    (Elaborate.isActive s = false ->
     levels (Elaborate.board s) !! Elaborate.LED_PIN = Some LOW /\
     tones (Elaborate.board s) !! Elaborate.BUZZER_PIN = None) /\
    (levels (Elaborate.board s) !! Elaborate.LED_PIN = Some HIGH ->
     Elaborate.ledState s = true))).
  - intros s rx t [Hoff Hon].
    rewrite elab_step_isActive, elab_step_led_pin, elab_step_buzzer,
      elab_step_ledState.
    split.
    + intros Hact. unfold Elaborate.led_due, Elaborate.tone_due.
      rewrite Hact. cbn [andb].
      destruct (elab_inactive_command rx s Hact) as [E|[E Hs]]; [exact E|].
      rewrite E. auto.
    + destruct (Elaborate.led_due rx t s).
      * intros H. injection H as H. exact H.
      * destruct (elab_command_led_pin rx s) as [E|E].
        -- rewrite E. discriminate.
        -- rewrite E. exact Hon.
  - split; [split; reflexivity|]. discriminate.
Qed.

Lemma simple_outputs_invariant (history : list (option ascii * Z)) :
  let s := Simple.run history Simple.boot in
  (Simple.isActive s = false ->
   levels (Simple.board s) !! Simple.LED_PIN = Some LOW) /\
  (levels (Simple.board s) !! Simple.LED_PIN = Some HIGH ->
   Simple.state s = true).
Proof.
  cbv zeta.
  apply (simple_run_invariant (fun s =>
    (Simple.isActive s = false ->
     levels (Simple.board s) !! Simple.LED_PIN = Some LOW) /\
    (levels (Simple.board s) !! Simple.LED_PIN = Some HIGH ->
     Simple.state s = true))).
  - intros s rx t [Hoff Hon].
    rewrite simple_step_isActive, simple_step_led_pin, simple_step_state.
    split.
    + intros Hact. unfold Simple.blink_due. rewrite Hact. cbn [andb].
      destruct (simple_inactive_command rx s Hact) as [[E _]|[E Hs]];
        [exact E|].
      rewrite E. auto.
    + destruct (Simple.blink_due rx t s).
      * intros H. injection H as H. exact H.
      * destruct (simple_command_pins rx s) as [[E _]|E].
        -- rewrite E. discriminate.
        -- rewrite E. exact Hon.
  - split; [reflexivity|]. discriminate.
Qed.

(** X3.  In every state reached from start-up, in both sketches, a lit LED
    means that the sketch is active and the phase variable is true; in the
    tone-sequencer sketch a tone on the buzzer pin means that the sketch is
    active, and in the other sketch a high buzzer pin means the same.  No
    run leaves an output on behind an inactive sketch. *)
Theorem X3_outputs_on_only_while_active :
  (forall history : list (option ascii * Z),
     let s := Elaborate.run history Elaborate.boot in
     (levels (Elaborate.board s) !! Elaborate.LED_PIN = Some HIGH ->
      Elaborate.isActive s = true /\ Elaborate.ledState s = true) /\
     (forall f : Z,
        tones (Elaborate.board s) !! Elaborate.BUZZER_PIN = Some f ->
        Elaborate.isActive s = true)) /\
  (forall history : list (option ascii * Z),
     let s := Simple.run history Simple.boot in
     (levels (Simple.board s) !! Simple.LED_PIN = Some HIGH ->
      Simple.isActive s = true /\ Simple.state s = true) /\
     (levels (Simple.board s) !! Simple.BUZZER_PIN = Some HIGH ->
      Simple.isActive s = true)).
Proof.
  split; intros history; cbv zeta.
  - destruct (elab_outputs_invariant history) as [Hoff Hon].
    split.
    + intros H. split; [|apply Hon, H].
      destruct (Elaborate.isActive (Elaborate.run history Elaborate.boot));
        [reflexivity|].
      destruct (Hoff eq_refl) as [E _]. rewrite E in H. discriminate.
    + intros f H.
      destruct (Elaborate.isActive (Elaborate.run history Elaborate.boot));
        [reflexivity|].
      destruct (Hoff eq_refl) as [_ E]. rewrite E in H. discriminate.
  - destruct (simple_outputs_invariant history) as [Hoff Hon].
    pose proof (X := simple_buzzer_level history).
    assert (Hled : levels (Simple.board (Simple.run history Simple.boot))
                     !! Simple.LED_PIN = Some HIGH ->
                   Simple.isActive (Simple.run history Simple.boot) = true).
    { intros H.
      destruct (Simple.isActive (Simple.run history Simple.boot));
        [reflexivity|].
      rewrite (Hoff eq_refl) in H. discriminate. }
    split.
    + intros H. split; [apply Hled, H|apply Hon, H].
    + intros H. apply Hled. rewrite <- X. exact H.
Qed.

Lemma X3_outputs_on_only_while_active_witness :
  let s := Elaborate.run [(Some "1"%char, 0); (None, 100)] Elaborate.boot in
  levels (Elaborate.board s) !! Elaborate.LED_PIN = Some HIGH /\
  Elaborate.isActive s = true /\ Elaborate.ledState s = true.
Proof.
  cbv zeta. split; [reflexivity|].
  exact (proj1 (proj1 X3_outputs_on_only_while_active
                  [(Some "1"%char, 0); (None, 100)]) eq_refl).
Defined.

(** ** What an iteration leaves alone *)

(** X5.  One iteration of [loop()] writes to no pin but its own.  In the
    tone-sequencer sketch the level of every pin other than 2 and 3 is left
    as it was (the buzzer pin 4 is never written with [digitalWrite]), and
    no tone is started or stopped on any pin other than 4.  In the other
    sketch the level of every pin other than 3 and 4 is left as it was and
    the tone generator is never used. *)
Theorem X5_iteration_writes_only_its_pins :
  (forall (s : Elaborate.Sketch) (rx : option ascii) (t pin : Z),
     pin <> Elaborate.LED_PIN_GREEN -> pin <> Elaborate.LED_PIN ->
     levels (Elaborate.board (Elaborate.step rx t s)) !! pin
     = levels (Elaborate.board s) !! pin) /\
  (forall (s : Elaborate.Sketch) (rx : option ascii) (t pin : Z),
     pin <> Elaborate.BUZZER_PIN ->
     tones (Elaborate.board (Elaborate.step rx t s)) !! pin
     = tones (Elaborate.board s) !! pin) /\
  (forall (s : Simple.Sketch) (rx : option ascii) (t pin : Z),
     pin <> Simple.LED_PIN -> pin <> Simple.BUZZER_PIN ->
     levels (Simple.board (Simple.step rx t s)) !! pin
     = levels (Simple.board s) !! pin) /\
  (forall (s : Simple.Sketch) (rx : option ascii) (t : Z),
     tones (Simple.board (Simple.step rx t s)) = tones (Simple.board s)).
Proof.
  split; [|split; [|split]].
  - intros s rx t pin H2 H3. destruct s.
    ElaborateFacts.crunch; ElaborateFacts.pins.
  - intros s rx t pin H4. destruct s.
    ElaborateFacts.crunch; ElaborateFacts.pins.
  - intros s rx t pin H3 H4. destruct s.
    SimpleFacts.crunch; SimpleFacts.pins.
  - intros s rx t. destruct s. SimpleFacts.crunch; reflexivity.
Qed.

Lemma X5_iteration_writes_only_its_pins_witness :
  13 <> Elaborate.LED_PIN_GREEN /\ 13 <> Elaborate.LED_PIN /\
  levels (Elaborate.board
            (Elaborate.step (Some "1"%char) 500 Elaborate.boot)) !! 13
  = levels (Elaborate.board Elaborate.boot) !! 13.
Proof.
  assert (H2 : 13 <> Elaborate.LED_PIN_GREEN) by discriminate.
  assert (H3 : 13 <> Elaborate.LED_PIN) by discriminate.
  split; [exact H2|]. split; [exact H3|].
  exact (proj1 X5_iteration_writes_only_its_pins
           Elaborate.boot (Some "1"%char) 500 13 H2 H3).
Defined.

(** An inactive sketch whose outputs are already quiescent is a fixed point
    of every iteration that does not read ['1']. *)
Lemma elab_idle_fixed (s : Elaborate.Sketch) (rx : option ascii) (t : Z) :
  Elaborate.isActive s = false ->
  rx <> Some "1"%char ->
  levels (Elaborate.board s) !! Elaborate.LED_PIN = Some LOW ->
  tones (Elaborate.board s) !! Elaborate.BUZZER_PIN = None ->
  levels (Elaborate.board s) !! Elaborate.LED_PIN_GREEN = Some HIGH ->
  Elaborate.step rx t s = s.
Proof.
  intros Ha Hrx Hled Hbuz Hgreen.
  destruct s as [a pl l pb ts [lv tn]]. cbn in Ha, Hled, Hbuz, Hgreen.
  subst a.
  assert (Hact : Elaborate.active_after rx
                   (Elaborate.mkSketch false pl l pb ts (mkBoard lv tn))
                 = false)
    by (apply elab_inactive_after_not_one; [reflexivity|exact Hrx]).
  revert Hact. ElaborateFacts.crunch; intros Hact; try congruence;
    cbv [digitalWrite noTone levels tones] in *;
    cbv [Elaborate.LED_PIN Elaborate.BUZZER_PIN Elaborate.LED_PIN_GREEN
         LOW HIGH] in *;
    rewrite ?(insert_id lv 3 false) by assumption;
    rewrite ?(insert_id lv 2 true) by assumption;
    rewrite ?(delete_id tn 4) by assumption;
    reflexivity.
Qed.

Lemma simple_idle_fixed (s : Simple.Sketch) (rx : option ascii) (t : Z) :
  Simple.isActive s = false ->
  rx <> Some "1"%char ->
  levels (Simple.board s) !! Simple.LED_PIN = Some LOW ->
  levels (Simple.board s) !! Simple.BUZZER_PIN = Some LOW ->
  Simple.step rx t s = s.
Proof.
  intros Ha Hrx Hled Hbuz.
  destruct s as [a pm st [lv tn]]. cbn in Ha, Hled, Hbuz. subst a.
  assert (Hact : Simple.active_after rx
                   (Simple.mkSketch false pm st (mkBoard lv tn)) = false).
  { destruct rx as [cmd|]; [|reflexivity].
    unfold Simple.active_after, exec, Simple.serial_command.
    destruct (Ascii.eqb cmd "1") eqn:E1.
    - apply Ascii.eqb_eq in E1. congruence.
    - destruct (Ascii.eqb cmd "0"); reflexivity. }
  revert Hact. SimpleFacts.crunch; intros Hact; try congruence;
    cbv [digitalWrite levels tones] in *;
    cbv [Simple.LED_PIN Simple.BUZZER_PIN LOW HIGH] in *;
    rewrite ?(insert_id lv 3 false) by assumption;
    rewrite ?(insert_id lv 4 false) by assumption;
    reflexivity.
Qed.

(** X7.  Once a run from start-up has left the sketch inactive, an iteration
    that does not read ['1'] changes nothing at all, whether it reads no
    byte, an ignored byte or another ['0'], and whatever the time: globals
    and outputs are exactly what they were.  The writes the idle iteration
    does perform (green LED high, and for ['0'] LED low and buzzer off) only
    repeat the levels already there. *)
Theorem X7_idle_iteration_changes_nothing :
  (forall (history : list (option ascii * Z)) (rx : option ascii) (t : Z),
     let s := Elaborate.run history Elaborate.boot in
     Elaborate.isActive s = false -> rx <> Some "1"%char ->
     Elaborate.step rx t s = s) /\
  (forall (history : list (option ascii * Z)) (rx : option ascii) (t : Z),
     let s := Simple.run history Simple.boot in
     Simple.isActive s = false -> rx <> Some "1"%char ->
     Simple.step rx t s = s).
Proof.
  split; intros history rx t; cbv zeta; intros Ha Hrx.
  - destruct (elab_outputs_invariant history) as [Hoff _].
    destruct (Hoff Ha) as [Hled Hbuz].
    apply elab_idle_fixed; try assumption.
    rewrite elab_green_level, Ha. reflexivity.
  - destruct (simple_outputs_invariant history) as [Hoff _].
    apply simple_idle_fixed; try assumption; [apply Hoff, Ha|].
    rewrite simple_buzzer_level. apply Hoff, Ha.
Qed.

Lemma X7_idle_iteration_changes_nothing_witness :
  let history := [(Some "1"%char, 0); (None, 100); (Some "0"%char, 150)] in
  let s := Elaborate.run history Elaborate.boot in
  Elaborate.isActive s = false /\ Some "0"%char <> Some "1"%char /\
  Elaborate.step (Some "0"%char) 9000 s = s.
Proof.
  cbv zeta.
  assert (Hrx : Some "0"%char <> Some "1"%char) by discriminate.
  split; [reflexivity|]. split; [exact Hrx|].
  exact (proj1 X7_idle_iteration_changes_nothing
           [(Some "1"%char, 0); (None, 100); (Some "0"%char, 150)]
           (Some "0"%char) 9000 eq_refl Hrx).
Defined.

(** ** The silence after a pause case *)

(** X4.  The 200 ms the PAUSE cases add to the buzzer timestamp do not hold
    the next case back.  When a PAUSE case is taken at [T0] the buzzer is
    silenced and the timestamp is put at [T0 + 200]; in an iteration that
    runs less than 200 ms later, with the sketch still active, the unsigned
    difference between the clock and that timestamp is at least 2^32 - 200,
    so the gate is open again: the BEEP or BOO case is taken at once, the
    tone starts (1000 Hz after PAUSE2, 600 Hz after PAUSE1), the sequencer
    is already at the following pause and the timestamp is the time of this
    second iteration. *)
Theorem X4_silence_ends_at_next_iteration
    (s0 : Elaborate.Sketch) (rx0 rx : option ascii) (T0 T : Z) :
  Elaborate.tone_due rx0 T0 s0 = true ->
  Elaborate.toneState s0 = Elaborate.PAUSE1 \/
  Elaborate.toneState s0 = Elaborate.PAUSE2 ->
  let s1 := Elaborate.step rx0 T0 s0 in
  Elaborate.active_after rx s1 = true ->
  0 <= T - T0 < Elaborate.buzzerSilence ->
  let s2 := Elaborate.step rx T s1 in
  tones (Elaborate.board s1) !! Elaborate.BUZZER_PIN = None /\
  Elaborate.previousBuzzerMillis s1
  = uadd (millis T0) Elaborate.buzzerSilence /\
  ULONG_MOD - Elaborate.buzzerSilence
  <= usub (millis T) (Elaborate.previousBuzzerMillis s1) /\
  Elaborate.toneState s2
  = Elaborate.successor (Elaborate.successor (Elaborate.toneState s0)) /\
  tones (Elaborate.board s2) !! Elaborate.BUZZER_PIN
  = match Elaborate.toneState s0 with
    | Elaborate.PAUSE1 => Some 600
    | _ => Some 1000
    end /\
  Elaborate.previousBuzzerMillis s2 = millis T.
Proof.
  intros Hdue0 Hpause. cbv zeta. intros Hact Hr.
  pose proof (elab_step_toneState rx0 T0 s0) as Hst.
  pose proof (elab_step_previousBuzzerMillis rx0 T0 s0) as Hstamp.
  pose proof (elab_step_buzzer rx0 T0 s0) as Hbuz.
  rewrite Hdue0 in Hst, Hstamp, Hbuz.
  assert (Hstamp' : Elaborate.previousBuzzerMillis (Elaborate.step rx0 T0 s0)
                    = uadd (millis T0) Elaborate.buzzerSilence)
    by (destruct Hpause as [E|E]; rewrite E in Hstamp; exact Hstamp).
  destruct (elab_tone_gate_before_advanced_stamp
              (Elaborate.step rx0 T0 s0) rx T0 T Hact Hstamp' Hr)
    as [Hdiff Hdue].
  assert (Hbuz' : tones (Elaborate.board (Elaborate.step rx0 T0 s0))
                    !! Elaborate.BUZZER_PIN = None)
    by (destruct Hpause as [E|E]; rewrite E in Hbuz; exact Hbuz).
  pose proof (elab_step_toneState rx T (Elaborate.step rx0 T0 s0)) as Hst2.
  pose proof (elab_step_buzzer rx T (Elaborate.step rx0 T0 s0)) as Hbuz2.
  pose proof (elab_step_previousBuzzerMillis rx T (Elaborate.step rx0 T0 s0))
    as Hstamp2.
  rewrite Hdue, Hst in Hst2, Hbuz2, Hstamp2.
  split; [exact Hbuz'|]. split; [exact Hstamp'|].
  split; [rewrite Hdiff; lia|]. split; [exact Hst2|].
  rewrite Hbuz2, Hstamp2.
  destruct Hpause as [E|E]; rewrite E; cbn; auto.
Qed.

Lemma X4_silence_ends_at_next_iteration_witness :
  let s0 := Elaborate.step (Some "1"%char) 0 Elaborate.boot in
  Elaborate.tone_due None 300 s0 = true /\
  (Elaborate.toneState s0 = Elaborate.PAUSE1 \/
   Elaborate.toneState s0 = Elaborate.PAUSE2) /\
  Elaborate.active_after None (Elaborate.step None 300 s0) = true /\
  0 <= 301 - 300 < Elaborate.buzzerSilence /\
  tones (Elaborate.board
           (Elaborate.step None 301 (Elaborate.step None 300 s0)))
    !! Elaborate.BUZZER_PIN = Some 1000.
Proof.
  cbv zeta.
  assert (Hp : Elaborate.toneState
                 (Elaborate.step (Some "1"%char) 0 Elaborate.boot)
               = Elaborate.PAUSE1 \/
               Elaborate.toneState
                 (Elaborate.step (Some "1"%char) 0 Elaborate.boot)
               = Elaborate.PAUSE2) by (right; reflexivity).
  assert (Hr : 0 <= 301 - 300 < Elaborate.buzzerSilence)
    by (unfold Elaborate.buzzerSilence; lia).
  split; [reflexivity|]. split; [exact Hp|]. split; [reflexivity|].
  split; [exact Hr|].
  exact (proj1 (proj2 (proj2 (proj2 (proj2
    (X4_silence_ends_at_next_iteration
       (Elaborate.step (Some "1"%char) 0 Elaborate.boot)
       None None 300 301 eq_refl Hp eq_refl Hr)))))).
Defined.

(** ** The gates beyond one turn of the counter *)

(** X8.  The gates see the time since the stored timestamp modulo 2^32 and
    nothing else.  Whatever the true distance between the moment whose clock
    reading is stored and the iteration, the LED (both sketches) flips and
    the sequencer advances exactly when that distance, reduced modulo 2^32,
    has reached the interval.  A pause of a whole number of counter periods
    therefore counts as no time at all. *)
Theorem X8_gates_count_modulo_counter (T_last T_now : Z) :
  (forall (s : Elaborate.Sketch) (rx : option ascii),
     Elaborate.active_after rx s = true ->
     Elaborate.previousLedMillis s = millis T_last ->
     (Elaborate.ledState (Elaborate.step rx T_now s)
      = negb (Elaborate.ledState s)
      <-> Elaborate.ledInterval <= (T_now - T_last) mod ULONG_MOD)) /\
  (forall (s : Elaborate.Sketch) (rx : option ascii),
     Elaborate.active_after rx s = true ->
     Elaborate.previousBuzzerMillis s = millis T_last ->
     (Elaborate.toneState (Elaborate.step rx T_now s)
      = Elaborate.successor (Elaborate.toneState s)
      <-> Elaborate.buzzerInterval <= (T_now - T_last) mod ULONG_MOD)) /\
  (forall (s : Simple.Sketch) (rx : option ascii),
     Simple.active_after rx s = true ->
     Simple.previousMillis s = millis T_last ->
     (Simple.state (Simple.step rx T_now s) = negb (Simple.state s)
      <-> Simple.blinkInterval <= (T_now - T_last) mod ULONG_MOD)).
Proof.
  split; [|split]; intros s rx Ha Hp.
  - rewrite elab_step_ledState. unfold Elaborate.led_due.
    rewrite Ha, Hp, usub_millis. cbn [andb]. unfold wrap.
    destruct (Z.leb_spec Elaborate.ledInterval
                ((T_now - T_last) mod ULONG_MOD)).
    + tauto.
    + split; [|lia]. destruct (Elaborate.ledState s); discriminate.
  - rewrite elab_step_toneState, successor_taken.
    unfold Elaborate.tone_due.
    rewrite Ha, Hp, usub_millis. cbn [andb]. unfold wrap. apply Z.leb_le.
  - rewrite simple_step_state. unfold Simple.blink_due.
    rewrite Ha, Hp, usub_millis. cbn [andb]. unfold wrap.
    destruct (Z.leb_spec Simple.blinkInterval
                ((T_now - T_last) mod ULONG_MOD)).
    + tauto.
    + split; [|lia]. destruct (Simple.state s); discriminate.
Qed.

Lemma X8_gates_count_modulo_counter_witness :
  let s := Simple.run [(Some "1"%char, 0); (None, 250)] Simple.boot in
  Simple.active_after None s = true /\
  Simple.previousMillis s = millis 250 /\
  ~ Simple.blinkInterval <= (250 + 2 ^ 32 + 249 - 250) mod ULONG_MOD /\
  Simple.state (Simple.step None (250 + 2 ^ 32 + 249) s)
  <> negb (Simple.state s).
Proof.
  cbv zeta.
  assert (Hn : ~ Simple.blinkInterval
                 <= (250 + 2 ^ 32 + 249 - 250) mod ULONG_MOD)
    by (vm_compute; intros H; apply H; reflexivity).
  split; [reflexivity|]. split; [reflexivity|]. split; [exact Hn|].
  intros Hflip. apply Hn.
  exact (proj1 (proj2 (proj2 (X8_gates_count_modulo_counter
                                250 (250 + 2 ^ 32 + 249)))
                  (Simple.run [(Some "1"%char, 0); (None, 250)] Simple.boot)
                  None eq_refl eq_refl) Hflip).
Defined.

(** ** Deactivation and activation in the sketch without sequencer *)

Lemma simple_inactive_after_not_one (rx : option ascii) (s : Simple.Sketch) :
  Simple.isActive s = false -> rx <> Some "1"%char ->
  Simple.active_after rx s = false.
Proof.
  intros Ha Hrx. destruct rx as [cmd|].
  - unfold Simple.active_after, exec, Simple.serial_command.
    destruct (Ascii.eqb cmd "1") eqn:E1.
    + apply Ascii.eqb_eq in E1. congruence.
    + destruct (Ascii.eqb cmd "0"); [reflexivity|exact Ha].
  - exact Ha.
Qed.

Lemma simple_idle_run (idle : list (option ascii * Z)) :
  forall s : Simple.Sketch,
    Simple.isActive s = false ->
    Forall (fun it => fst it <> Some "1"%char) idle ->
    let s' := Simple.run idle s in
    Simple.isActive s' = false /\
    Simple.state s' = Simple.state s /\
    Simple.previousMillis s' = Simple.previousMillis s /\
    (levels (Simple.board s) !! Simple.LED_PIN = Some LOW ->
     levels (Simple.board s') !! Simple.LED_PIN = Some LOW) /\
    (levels (Simple.board s) !! Simple.BUZZER_PIN = Some LOW ->
     levels (Simple.board s') !! Simple.BUZZER_PIN = Some LOW).
Proof.
  induction idle as [|[rx t] idle IH]; intros s Ha Hall; cbn.
  - tauto.
  - inversion Hall as [|it idle' Hrx Hrest]; subst. cbn in Hrx.
    assert (Hact : Simple.active_after rx s = false)
      by (apply simple_inactive_after_not_one; assumption).
    assert (Hdue : Simple.blink_due rx t s = false)
      by (unfold Simple.blink_due; rewrite Hact; reflexivity).
    destruct (IH (Simple.step rx t s)) as (I1 & I2 & I3 & I4 & I5).
    + rewrite simple_step_isActive. exact Hact.
    + exact Hrest.
    + rewrite I1, I2, I3.
      rewrite simple_step_state, simple_step_previousMillis, Hdue.
      repeat (split; [reflexivity|]). split; intros H; [apply I4|apply I5].
      * rewrite simple_step_led_pin, Hdue.
        destruct (simple_command_pins rx s) as [[E _]|E]; [exact E|].
        rewrite E. exact H.
      * rewrite simple_step_buzzer_pin, Hdue.
        destruct (simple_command_pins rx s) as [[_ E]|E]; [exact E|].
        rewrite E. exact H.
Qed.

(** X6.  In the sketch without sequencer, too, ['0'] forces the outputs and
    nothing else: after the ['0'] and any further iterations in which no
    ['1'] arrives, the phase [state] and the timestamp [previousMillis] are
    what they were before the ['0'], and LED and buzzer pins are low.  The
    iteration that then reads ['1'] compares the clock with the retained
    timestamp, and when the gate is open it flips the retained phase and
    writes it to both pins in that same iteration. *)
Theorem X6_simple_deactivation_retains_phase
    (s : Simple.Sketch) (t0 : Z) (idle : list (option ascii * Z)) :
  Forall (fun it => fst it <> Some "1"%char) idle ->
  let s1 := Simple.run ((Some "0"%char, t0) :: idle) s in
  (Simple.isActive s1 = false /\
   Simple.state s1 = Simple.state s /\
   Simple.previousMillis s1 = Simple.previousMillis s /\
   levels (Simple.board s1) !! Simple.LED_PIN = Some LOW /\
   levels (Simple.board s1) !! Simple.BUZZER_PIN = Some LOW) /\
  forall t1 : Z,
    let s2 := Simple.step (Some "1"%char) t1 s1 in
    Simple.isActive s2 = true /\
    if Simple.blinkInterval <=? usub (millis t1) (Simple.previousMillis s)
    then Simple.state s2 = negb (Simple.state s) /\
         Simple.previousMillis s2 = millis t1 /\
         levels (Simple.board s2) !! Simple.LED_PIN
         = Some (negb (Simple.state s)) /\
         levels (Simple.board s2) !! Simple.BUZZER_PIN
         = Some (negb (Simple.state s))
    else Simple.state s2 = Simple.state s /\
         Simple.previousMillis s2 = Simple.previousMillis s /\
         levels (Simple.board s2) !! Simple.LED_PIN = Some LOW /\
         levels (Simple.board s2) !! Simple.BUZZER_PIN = Some LOW.
Proof.
  intros Hidle. cbn [Simple.run]. cbv zeta.
  pose proof (Ezero := simple_command_zero s).
  assert (H0 : Simple.active_after (Some "0"%char) s = false)
    by (unfold Simple.active_after; rewrite Ezero; reflexivity).
  assert (Hdue : Simple.blink_due (Some "0"%char) t0 s = false)
    by (unfold Simple.blink_due; rewrite H0; reflexivity).
  destruct (simple_idle_run idle (Simple.step (Some "0"%char) t0 s))
    as (I1 & I2 & I3 & I4 & I5).
  { rewrite simple_step_isActive. exact H0. }
  { exact Hidle. }
  rewrite simple_step_state, Hdue in I2.
  rewrite simple_step_previousMillis, Hdue in I3.
  assert (Hled : levels (Simple.board
                           (Simple.run idle (Simple.step (Some "0"%char) t0 s)))
                   !! Simple.LED_PIN = Some LOW).
  { apply I4. rewrite simple_step_led_pin, Hdue, Ezero. cbn [Simple.board].
    SimpleFacts.pins. }
  assert (Hbuz : levels (Simple.board
                           (Simple.run idle (Simple.step (Some "0"%char) t0 s)))
                   !! Simple.BUZZER_PIN = Some LOW).
  { apply I5. rewrite simple_step_buzzer_pin, Hdue, Ezero. cbn [Simple.board].
    SimpleFacts.pins. }
  split; [auto 6|].
  intros t1.
  rewrite simple_step_isActive, simple_step_state, simple_step_previousMillis,
    simple_step_led_pin, simple_step_buzzer_pin.
  unfold Simple.blink_due, Simple.active_after.
  rewrite simple_command_one. cbn [Simple.isActive Simple.board andb].
  rewrite I2, I3. split; [reflexivity|].
  destruct (Simple.blinkInterval <=? usub (millis t1) (Simple.previousMillis s));
    auto.
Qed.

Lemma X6_simple_deactivation_retains_phase_witness :
  let s := Simple.run [(Some "1"%char, 0); (None, 250)] Simple.boot in
  let idle := [(None, 300); (Some "0"%char, 400)] in
  Forall (fun it => fst it <> Some "1"%char) idle /\
  Simple.state (Simple.run ((Some "0"%char, 260) :: idle) s) = Simple.state s.
Proof.
  cbv zeta.
  assert (Hidle : Forall (fun it => fst it <> Some "1"%char)
                    [(None, 300); (Some "0"%char, 400)])
    by (repeat constructor; cbn; discriminate).
  split; [exact Hidle|].
  exact (proj1 (proj2 (proj1 (X6_simple_deactivation_retains_phase
    (Simple.run [(Some "1"%char, 0); (None, 250)] Simple.boot) 260 _ Hidle)))).
Defined.

(** ** The first activation after start-up *)

Lemma usub_zero (t : Z) : usub (millis t) 0 = millis t.
Proof.
  unfold usub, millis, wrap. rewrite Z.sub_0_r. apply Zmod_mod.
Qed.

(** X9.  The timestamps start at 0 and are not touched until the sketch is
    active, so the first ['1'] after start-up is gated on the time since
    boot.  Whatever idle iterations came first, the iteration that reads the
    first ['1'] at clock reading [millis t] turns the green LED off; in the
    tone-sequencer sketch it lights the LED at once if [millis t] is at least
    100 and otherwise leaves it dark, and it moves the sequencer from PAUSE2
    to BEEP at once if [millis t] is at least 300, the buzzer staying silent
    either way; in the other sketch it raises LED and buzzer at once if
    [millis t] is at least 250 and otherwise leaves both low. *)
Theorem X9_first_activation_gated_on_uptime
    (idle : list (option ascii * Z)) (t : Z) :
  Forall (fun it => fst it <> Some "1"%char) idle ->
  (let s := Elaborate.step (Some "1"%char) t
              (Elaborate.run idle Elaborate.boot) in
   Elaborate.isActive s = true /\
   levels (Elaborate.board s) !! Elaborate.LED_PIN_GREEN = Some LOW /\
   Elaborate.ledState s = (Elaborate.ledInterval <=? millis t) /\
   levels (Elaborate.board s) !! Elaborate.LED_PIN
   = Some (Elaborate.ledInterval <=? millis t) /\
   Elaborate.toneState s
   = (if Elaborate.buzzerInterval <=? millis t
      then Elaborate.BEEP else Elaborate.PAUSE2) /\
   tones (Elaborate.board s) !! Elaborate.BUZZER_PIN = None) /\
  (let s := Simple.step (Some "1"%char) t (Simple.run idle Simple.boot) in
   Simple.isActive s = true /\
   Simple.state s = (Simple.blinkInterval <=? millis t) /\
   levels (Simple.board s) !! Simple.LED_PIN
   = Some (Simple.blinkInterval <=? millis t) /\
   levels (Simple.board s) !! Simple.BUZZER_PIN
   = Some (Simple.blinkInterval <=? millis t)).
Proof.
  intros Hidle. split; cbv zeta.
  - destruct (elab_idle_run idle Elaborate.boot eq_refl Hidle)
      as (I1 & I2 & I3 & I4 & I5 & I6 & I7).
    specialize (I6 eq_refl). specialize (I7 eq_refl).
    change (Elaborate.toneState Elaborate.boot) with Elaborate.PAUSE2 in I2.
    change (Elaborate.ledState Elaborate.boot) with false in I3.
    change (Elaborate.previousLedMillis Elaborate.boot) with 0 in I4.
    change (Elaborate.previousBuzzerMillis Elaborate.boot) with 0 in I5.
    rewrite elab_step_isActive, elab_step_green_pin, elab_step_ledState,
      elab_step_led_pin, elab_step_toneState, elab_step_buzzer.
    unfold Elaborate.led_due, Elaborate.tone_due, Elaborate.active_after.
    rewrite elab_command_one. cbn [Elaborate.isActive Elaborate.board andb].
    rewrite I2, I3, I4, I5, I6, I7, !usub_zero.
    repeat (split; [reflexivity|]).
    destruct (Elaborate.ledInterval <=? millis t),
             (Elaborate.buzzerInterval <=? millis t); auto.
  - destruct (simple_idle_run idle Simple.boot eq_refl Hidle)
      as (I1 & I2 & I3 & I4 & I5).
    specialize (I4 eq_refl). specialize (I5 eq_refl).
    change (Simple.state Simple.boot) with false in I2.
    change (Simple.previousMillis Simple.boot) with 0 in I3.
    rewrite simple_step_isActive, simple_step_state, simple_step_led_pin,
      simple_step_buzzer_pin.
    unfold Simple.blink_due, Simple.active_after.
    rewrite simple_command_one. cbn [Simple.isActive Simple.board andb].
    rewrite I2, I3, I4, I5, usub_zero.
    split; [reflexivity|].
    destruct (Simple.blinkInterval <=? millis t); auto.
Qed.

Lemma X9_first_activation_gated_on_uptime_witness :
  let idle := [(None, 10); (Some "0"%char, 2000); (Some "x"%char, 4000)] in
  Forall (fun it => fst it <> Some "1"%char) idle /\
  levels (Elaborate.board
            (Elaborate.step (Some "1"%char) 5000
               (Elaborate.run idle Elaborate.boot))) !! Elaborate.LED_PIN
  = Some (Elaborate.ledInterval <=? millis 5000).
Proof.
  cbv zeta.
  assert (Hidle : Forall (fun it => fst it <> Some "1"%char)
            [(None, 10); (Some "0"%char, 2000); (Some "x"%char, 4000)])
    by (repeat constructor; cbn; discriminate).
  split; [exact Hidle|].
  exact (proj1 (proj2 (proj2 (proj2 (proj1
    (X9_first_activation_gated_on_uptime _ 5000 Hidle)))))).
Defined.
